(** * The shift cipher of [encrypt.py]

    A shallow embedding of the cipher engine of [src/encrypt.py]
    ([_shift_char], [_encrypt_char], [_decrypt_char], [encrypt_text],
    [encrypt_text_with_meta], [decrypt_text], [decrypt_text_with_meta])
    and the properties its specification states about it, followed by the
    file layer of the same module ([_paths], [encrypt_file],
    [decrypt_file], [verify_decryption], [_read_int], [main]) on a model
    of the files and the standard streams.

    Python values are modelled as follows.
    - A character is its Unicode code point, a [N]; a [str] is the list of
      its characters.  String literals of the source are written with [py].
    - An [int] is a [Z]; [%] on [int] is floored, as [Z.modulo] is.
    - A [set] of characters is a [gset N].
    - A call either returns or raises: [result A]. *)

From Stdlib Require Import ZArith NArith Ascii String.
From stdpp Require Import base numbers option list list_monad gmap.

Local Open Scope Z_scope.

(** ** Python values *)

(** The code point of a character literal, and the characters of a string
    literal. *)
Definition ch (a : ascii) : N := N_of_ascii a.

Fixpoint py (s : string) : list N :=
  match s with
  | EmptyString => []
  | String a s' => ch a :: py s'
  end.

(** The exceptions the cipher engine can name: [ValueError] (from
    [str.index] and from the length check), [IndexError] (from subscripting)
    and [ZeroDivisionError] (from [%]). *)
Inductive exn : Type :=
  | ValueError (msg : string)
  | IndexError
  | ZeroDivisionError.

Inductive result (A : Type) : Type :=
  | Ok (a : A)
  | Raise (e : exn).
Arguments Ok {A} a.
Arguments Raise {A} e.

Global Instance result_ret : MRet result := λ A a, Ok a.
Global Instance result_bind : MBind result := λ A B f m,
  match m with
  | Ok a => f a
  | Raise e => Raise e
  end.
Global Instance result_fmap : FMap result := λ A B f m,
  match m with
  | Ok a => Ok (f a)
  | Raise e => Raise e
  end.

(** [alphabet.index(c)] for a one-character [c]: the first position of [c],
    [ValueError] when it does not occur. *)
Fixpoint index (alphabet : list N) (c : N) : result Z :=
  match alphabet with
  | [] => Raise (ValueError "substring not found")
  | x :: rest =>
      if decide (x = c) then Ok 0
      else i ← index rest c; Ok (1 + i)
  end.

(** [alphabet[i]]: a negative [i] counts from the end, and a position
    outside the string raises [IndexError]. *)
Definition getitem (alphabet : list N) (i : Z) : result N :=
  let n := Z.of_nat (length alphabet) in
  let j := if decide (i < 0) then i + n else i in
  if decide (j < 0 ∨ n ≤ j) then Raise IndexError
  else match alphabet !! Z.to_nat j with
       | Some c => Ok c
       | None => Raise IndexError
       end.

(** [a % n] on [int]: the result has the sign of [n]; [n = 0] raises. *)
Definition py_mod (a n : Z) : result Z :=
  if decide (n = 0) then Raise ZeroDivisionError else Ok (a `mod` n).

(** ** Module constants *)

Definition ALPHA_LOWER : list N := py "abcdefghijklmnopqrstuvwxyz".
Definition ALPHA_UPPER : list N := py "ABCDEFGHIJKLMNOPQRSTUVWXYZ".
Definition LOWER_FIRST : gset N := list_to_set (py "abcdefghijklm").
Definition LOWER_SECOND : gset N := list_to_set (py "nopqrstuvwxyz").
Definition UPPER_FIRST : gset N := list_to_set (py "ABCDEFGHIJKLM").
Definition UPPER_SECOND : gset N := list_to_set (py "NOPQRSTUVWXYZ").

(** ** [_shift_char] *)

Definition _shift_char (c : N) (shift : Z) (alphabet : list N) : result N :=
  if decide (c ∉ alphabet) then Ok c
  else
    let n := Z.of_nat (length alphabet) in
    idx ← index alphabet c;
    k ← py_mod (idx + shift) n;
    getitem alphabet k.

Section Cipher.

(** [str.islower] and [str.isupper] of a one-character string hold when
    the character is cased and lowercase (uppercase).  In the ASCII range
    these are the letters a-z (A-Z); above it the answer comes from the
    Unicode database of the interpreter, which is a parameter here. *)
Variables unicode_lower unicode_upper : N → bool.

Definition islower (c : N) : bool :=
  if decide (c < 128)%N then bool_decide (ch "a" ≤ c ≤ ch "z")%N
  else unicode_lower c.

Definition isupper (c : N) : bool :=
  if decide (c < 128)%N then bool_decide (ch "A" ≤ c ≤ ch "Z")%N
  else unicode_upper c.

(** ** [_encrypt_char] and [_decrypt_char] *)

Definition _encrypt_char (c : N) (shift1 shift2 : Z) : result N :=
  if islower c then
    if decide (c ∈ LOWER_FIRST) then _shift_char c (shift1 * shift2) ALPHA_LOWER
    else if decide (c ∈ LOWER_SECOND) then _shift_char c (- (shift1 + shift2)) ALPHA_LOWER
    else Ok c
  else if isupper c then
    if decide (c ∈ UPPER_FIRST) then _shift_char c (- shift1) ALPHA_UPPER
    else if decide (c ∈ UPPER_SECOND) then _shift_char c (shift2 ^ 2) ALPHA_UPPER
    else Ok c
  else Ok c.

Definition _decrypt_char (c : N) (shift1 shift2 : Z) : result N :=
  if islower c then
    cand1 ← _shift_char c (- (shift1 * shift2)) ALPHA_LOWER;
    if decide (cand1 ∈ LOWER_FIRST) then Ok cand1
    else
      cand2 ← _shift_char c (shift1 + shift2) ALPHA_LOWER;
      Ok cand2
  else if isupper c then
    cand1 ← _shift_char c shift1 ALPHA_UPPER;
    if decide (cand1 ∈ UPPER_FIRST) then Ok cand1
    else
      cand2 ← _shift_char c (- (shift2 ^ 2)) ALPHA_UPPER;
      Ok cand2
  else Ok c.

(** ** The text functions *)

(** [encrypt_text] and [decrypt_text] join the characters a generator
    yields, in order. *)
Definition encrypt_text (text : list N) (shift1 shift2 : Z) : result (list N) :=
  mapM (λ c, _encrypt_char c shift1 shift2) text.

Definition decrypt_text (text : list N) (shift1 shift2 : Z) : result (list N) :=
  mapM (λ c, _decrypt_char c shift1 shift2) text.

(** One turn of the loop of [encrypt_text_with_meta]: the character
    appended to [encrypted_chars] and the one appended to [meta_chars]. *)
Definition encrypt_meta_step (c : N) (shift1 shift2 : Z) : result (N * N) :=
  if islower c then
    if decide (c ∈ LOWER_FIRST) then
      e ← _shift_char c (shift1 * shift2) ALPHA_LOWER; Ok (e, ch "l")
    else if decide (c ∈ LOWER_SECOND) then
      e ← _shift_char c (- (shift1 + shift2)) ALPHA_LOWER; Ok (e, ch "L")
    else Ok (c, ch "0")
  else if isupper c then
    if decide (c ∈ UPPER_FIRST) then
      e ← _shift_char c (- shift1) ALPHA_UPPER; Ok (e, ch "u")
    else if decide (c ∈ UPPER_SECOND) then
      e ← _shift_char c (shift2 ^ 2) ALPHA_UPPER; Ok (e, ch "U")
    else Ok (c, ch "0")
  else Ok (c, ch "0").

(** The loop itself, over the rest of the text, with the two lists built
    so far. *)
Fixpoint encrypt_meta_loop (text : list N) (shift1 shift2 : Z)
    (encrypted_chars meta_chars : list N) : result (list N * list N) :=
  match text with
  | [] => Ok (encrypted_chars, meta_chars)
  | c :: rest =>
      '(e, m) ← encrypt_meta_step c shift1 shift2;
      encrypt_meta_loop rest shift1 shift2 (encrypted_chars ++ [e]) (meta_chars ++ [m])
  end.

Definition encrypt_text_with_meta (text : list N) (shift1 shift2 : Z)
    : result (list N * list N) :=
  encrypt_meta_loop text shift1 shift2 [] [].

(** One turn of the loop of [decrypt_text_with_meta], for a pair of
    [zip(ciphertext, metadata)]. *)
Definition decrypt_meta_step (c m : N) (shift1 shift2 : Z) : result N :=
  if decide (m = ch "l") then _shift_char c (- (shift1 * shift2)) ALPHA_LOWER
  else if decide (m = ch "L") then _shift_char c (shift1 + shift2) ALPHA_LOWER
  else if decide (m = ch "u") then _shift_char c shift1 ALPHA_UPPER
  else if decide (m = ch "U") then _shift_char c (- (shift2 ^ 2)) ALPHA_UPPER
  else Ok c.

Fixpoint decrypt_meta_loop (pairs : list (N * N)) (shift1 shift2 : Z)
    (result_chars : list N) : result (list N) :=
  match pairs with
  | [] => Ok result_chars
  | (c, m) :: rest =>
      d ← decrypt_meta_step c m shift1 shift2;
      decrypt_meta_loop rest shift1 shift2 (result_chars ++ [d])
  end.

Definition length_mismatch : exn :=
  ValueError "Ciphertext and metadata lengths do not match".

Definition decrypt_text_with_meta (ciphertext metadata : list N)
    (shift1 shift2 : Z) : result (list N) :=
  if decide (length ciphertext ≠ length metadata) then Raise length_mismatch
  else decrypt_meta_loop (zip ciphertext metadata) shift1 shift2 [].

End Cipher.

(** ** The vocabulary of the specification *)

(** The five categories of a character and the code recorded for each. *)
Inductive Category : Type :=
  | lower_first
  | lower_second
  | upper_first
  | upper_second
  | passthrough.

(** [c] lies between the characters [lo] and [hi], both included. *)
Definition in_range (lo hi : ascii) (c : N) : Prop := (ch lo ≤ c ≤ ch hi)%N.

Global Instance in_range_dec lo hi c : Decision (in_range lo hi c) := _.

Definition is_letter (c : N) : Prop := in_range "a" "z" c ∨ in_range "A" "Z" c.

Definition classify (c : N) : Category :=
  if decide (in_range "a" "m" c) then lower_first
  else if decide (in_range "n" "z" c) then lower_second
  else if decide (in_range "A" "M" c) then upper_first
  else if decide (in_range "N" "Z" c) then upper_second
  else passthrough.

Definition code (k : Category) : N :=
  match k with
  | lower_first => ch "l"
  | lower_second => ch "L"
  | upper_first => ch "u"
  | upper_second => ch "U"
  | passthrough => ch "0"
  end.

(** The 26 letters that start at [base], in alphabetic order; position
    [(index + shift) mod 26] of a letter [c] among them; and the letter at
    that position. *)
Definition letters (base : ascii) : list N :=
  (λ i, (ch base + N.of_nat i)%N) <$> seq 0 26.

Definition position (base : ascii) (c : N) (shift : Z) : Z :=
  (Z.of_N c - Z.of_N (ch base) + shift) `mod` 26.

Definition rotate (base : ascii) (c : N) (shift : Z) : N :=
  (ch base + Z.to_N (position base c shift))%N.

(** The table of the forward transform, by category. *)
Definition spec_encrypt_char (shift1 shift2 : Z) (c : N) : N :=
  match classify c with
  | lower_first => rotate "a" c (shift1 * shift2)
  | lower_second => rotate "a" c (- (shift1 + shift2))
  | upper_first => rotate "A" c (- shift1)
  | upper_second => rotate "A" c (shift2 * shift2)
  | passthrough => c
  end.

(** The table of the metadata-assisted inverse, by code. *)
Definition spec_decode_with_metadata_char (shift1 shift2 : Z) (c m : N) : N :=
  if decide (m = ch "l") then
    if decide (in_range "a" "z" c) then rotate "a" c (- (shift1 * shift2)) else c
  else if decide (m = ch "L") then
    if decide (in_range "a" "z" c) then rotate "a" c (shift1 + shift2) else c
  else if decide (m = ch "u") then
    if decide (in_range "A" "Z" c) then rotate "A" c shift1 else c
  else if decide (m = ch "U") then
    if decide (in_range "A" "Z" c) then rotate "A" c (- (shift2 * shift2)) else c
  else c.

(** The heuristic inverse: the first-half candidate when it lands in the
    first half, the second-half inverse otherwise. *)
Definition spec_decode_heuristic_char (shift1 shift2 : Z) (c : N) : N :=
  if decide (in_range "a" "z" c) then
    let cand1 := rotate "a" c (- (shift1 * shift2)) in
    if decide (in_range "a" "m" cand1) then cand1
    else rotate "a" c (shift1 + shift2)
  else if decide (in_range "A" "Z" c) then
    let cand1 := rotate "A" c shift1 in
    if decide (in_range "A" "M" cand1) then cand1
    else rotate "A" c (- (shift2 * shift2))
  else c.

(** The cased characters of the Latin-1 supplement, as tables for
    evaluating the functions on Latin-1 text: the lowercase ones are
    U+00AA, U+00B5, U+00BA, U+00DF-U+00F6 and U+00F8-U+00FF, the uppercase
    ones U+00C0-U+00D6 and U+00D8-U+00DE. *)
Definition latin1_lower (c : N) : bool :=
  bool_decide (c = 170 ∨ c = 181 ∨ c = 186 ∨ 223 ≤ c ≤ 246 ∨ 248 ≤ c ≤ 255)%N.

Definition latin1_upper (c : N) : bool :=
  bool_decide (192 ≤ c ≤ 214 ∨ 216 ≤ c ≤ 222)%N.

(** [e] is a letter of the same case as [c], or both are the same
    character that is not a letter. *)
Definition same_case (c e : N) : Prop :=
  (in_range "a" "z" c ∧ in_range "a" "z" e)
  ∨ (in_range "A" "Z" c ∧ in_range "A" "Z" e)
  ∨ (¬ is_letter c ∧ e = c).

(** The characters the heuristic decode gets wrong after an encryption: a
    letter of n-z (N-Z) whose ciphertext, shifted back by the rule of the
    first half, lands in a-m (A-M). *)
Definition heuristic_misreads (shift1 shift2 : Z) (c : N) : Prop :=
  (in_range "n" "z" c
   ∧ in_range "a" "m"
       (rotate "a" (rotate "a" c (- (shift1 + shift2))) (- (shift1 * shift2))))
  ∨ (in_range "N" "Z" c
     ∧ in_range "A" "M" (rotate "A" (rotate "A" c (shift2 * shift2)) shift1)).

(** ** The file layer of [encrypt.py]

    [_paths], [encrypt_file], [decrypt_file], [verify_decryption],
    [_read_int] and [main] act on the files beside the script, on standard
    input and on standard output.  They are modelled on a [world] of a POSIX
    system:
    - [files] maps a path to the text a UTF-8 file holds, as code points,
      before newline translation;
    - [stdin] is the list of the lines still to be read (without their
      newline), and the end of input when it is empty;
    - [stdout] is the text written so far.
    A call either returns or raises, and leaves a world behind in both
    cases. *)

Inductive io_exn : Type :=
  | CipherError (e : exn)
  | FileNotFoundError (path : list N)
  | UnicodeEncodeError
  | EOFError.

Inductive outcome (A : Type) : Type :=
  | Returned (a : A)
  | Raised (e : io_exn).
Arguments Returned {A} a.
Arguments Raised {A} e.

Record world : Type := World {
  files : gmap (list N) (list N);
  stdin : list (list N);
  stdout : list N
}.

Record io (A : Type) : Type := IO { run : world → outcome A * world }.
Arguments IO {A} run.
Arguments run {A} _ _.

Global Instance io_ret : MRet io := λ A a, IO (λ w, (Returned a, w)).
Global Instance io_bind : MBind io := λ A B f m, IO (λ w,
  match run m w with
  | (Returned a, w') => run (f a) w'
  | (Raised e, w') => (Raised e, w')
  end).

(** A call into the cipher engine: its exception, if any, propagates. *)
Definition engine {A} (r : result A) : io A := IO (λ w,
  match r with
  | Ok a => (Returned a, w)
  | Raise e => (Raised (CipherError e), w)
  end).

(** Reading in text mode translates the line endings '\r\n' and '\r' to
    '\n': a '\r' is read as '\n', and a '\n' that comes right after a '\r'
    is dropped. *)
Fixpoint translate_newlines (after_cr : bool) (content : list N) : list N :=
  match content with
  | [] => []
  | c :: rest =>
      if decide (c = 13%N) then 10%N :: translate_newlines true rest
      else if decide (c = 10%N ∧ after_cr = true) then translate_newlines false rest
      else c :: translate_newlines false rest
  end.

Definition universal_newlines (content : list N) : list N :=
  translate_newlines false content.

(** [open(path, "r", encoding="utf-8")] and [f.read()]: a missing file
    raises [FileNotFoundError]. *)
Definition read_file (path : list N) : io (list N) := IO (λ w,
  match files w !! path with
  | Some content => (Returned (universal_newlines content), w)
  | None => (Raised (FileNotFoundError path), w)
  end).

(** A surrogate code point has no UTF-8 encoding. *)
Definition is_surrogate (c : N) : Prop := (55296 ≤ c ≤ 57343)%N.

Global Instance is_surrogate_dec c : Decision (is_surrogate c) := _.

(** [open(path, "w", encoding="utf-8")] and [f.write(text)]: opening
    creates the file or empties it, and writing encodes the whole text
    first, raising [UnicodeEncodeError] on a surrogate; a POSIX system
    writes '\n' as it is. *)
Definition write_file (path text : list N) : io unit := IO (λ w,
  if decide (Exists is_surrogate text) then
    (Raised UnicodeEncodeError,
     World (<[path := []]> (files w)) (stdin w) (stdout w))
  else
    (Returned tt, World (<[path := text]> (files w)) (stdin w) (stdout w))).

(** [print(text)]: the text and a newline go to standard output. *)
Definition print (text : list N) : io unit := IO (λ w,
  (Returned tt, World (files w) (stdin w) (stdout w ++ text ++ [10%N]))).

(** [input(prompt)]: the prompt goes to standard output and the next line
    of standard input is returned; at the end of input it raises
    [EOFError]. *)
Definition input (prompt : list N) : io (list N) := IO (λ w,
  match stdin w with
  | line :: rest => (Returned line, World (files w) rest (stdout w ++ prompt))
  | [] => (Raised EOFError, World (files w) [] (stdout w ++ prompt))
  end).

(** [os.path.join(a, b)] of [posixpath]. *)
Definition path_join (a b : list N) : list N :=
  if decide (head b = Some (ch "/")) then b
  else if decide (a = [] ∨ last a = Some (ch "/")) then a ++ b
  else a ++ py "/" ++ b.

(** What [os.path.join] puts before a relative name: the directory, and a
    '/' unless the directory is empty or ends with one. *)
Definition dir_prefix (dir : list N) : list N :=
  if decide (dir = [] ∨ last dir = Some (ch "/")) then dir else dir ++ py "/".

(** The world after [encrypt_file], [decrypt_file] and
    [verify_decryption] in a row, for a raw_text.txt that holds [content]. *)
Definition after_round (script_dir : list N) (shift1 shift2 : Z) (w : world)
    (content : list N) : world :=
  let pre := dir_prefix script_dir in
  World
    (<[pre ++ py "decrypted_text.txt" := universal_newlines content]>
       (<[pre ++ py "encryption_meta.txt"
           := code ∘ classify <$> universal_newlines content]>
          (<[pre ++ py "encrypted_text.txt"
              := spec_encrypt_char shift1 shift2 <$> universal_newlines content]>
             (files w))))
    (stdin w)
    (((stdout w ++ (py "Encrypted -> " ++ pre ++ py "encrypted_text.txt") ++ [10%N])
      ++ (py "Decrypted -> " ++ pre ++ py "decrypted_text.txt") ++ [10%N])
     ++ (py "Verification: " ++ py "SUCCESS") ++ [10%N]).

Section Files.

(** The parameters of the file layer: the Unicode tables of the cipher
    engine; [script_dir], the value of
    [os.path.dirname(os.path.abspath(__file__))]; and the builtins
    [str.strip] and [int] on a string, [None] standing for the
    [ValueError] of a string that is not an integer. *)
Variables unicode_lower unicode_upper : N → bool.
Variable script_dir : list N.
Variable strip : list N → list N.
Variable int : list N → option Z.

Definition _paths : list N * list N * list N * list N :=
  let base := script_dir in
  let raw_path := path_join base (py "raw_text.txt") in
  let enc_path := path_join base (py "encrypted_text.txt") in
  let dec_path := path_join base (py "decrypted_text.txt") in
  let meta_path := path_join base (py "encryption_meta.txt") in
  (raw_path, enc_path, dec_path, meta_path).

Definition encrypt_file (shift1 shift2 : Z) : io unit :=
  let '(raw_path, enc_path, _, meta_path) := _paths in
  raw ← read_file raw_path;
  '(enc, meta) ← engine (encrypt_text_with_meta unicode_lower unicode_upper
                           raw shift1 shift2);
  _ ← write_file enc_path enc;
  _ ← write_file meta_path meta;
  print (py "Encrypted -> " ++ enc_path).

Definition decrypt_file (shift1 shift2 : Z) : io unit :=
  let '(_, enc_path, dec_path, meta_path) := _paths in
  enc ← read_file enc_path;
  meta ← read_file meta_path;
  dec ← engine (decrypt_text_with_meta enc meta shift1 shift2);
  _ ← write_file dec_path dec;
  print (py "Decrypted -> " ++ dec_path).

Definition verify_decryption : io bool :=
  let '(raw_path, _, dec_path, _) := _paths in
  raw ← read_file raw_path;
  dec ← read_file dec_path;
  let ok := bool_decide (raw = dec) in
  _ ← print (py "Verification: " ++ (if ok then py "SUCCESS" else py "FAILURE"));
  mret ok.

(** The loop of [_read_int] over the lines of standard input: a line that
    is not an integer costs a message and the loop asks again; the end of
    input raises [EOFError] out of the loop. *)
Fixpoint read_int_loop (prompt : list N) (lines : list (list N)) (out : list N)
    : outcome Z * list (list N) * list N :=
  match lines with
  | [] => (Raised EOFError, [], out ++ prompt)
  | line :: rest =>
      match int (strip line) with
      | Some n => (Returned n, rest, out ++ prompt)
      | None =>
          read_int_loop prompt rest
            (out ++ prompt ++ py "Please enter an integer." ++ [10%N])
      end
  end.

Definition _read_int (prompt : list N) : io Z := IO (λ w,
  let '(r, lines, out) := read_int_loop prompt (stdin w) (stdout w) in
  (r, World (files w) lines out)).

Definition main : io unit :=
  shift1 ← _read_int (py "Enter shift1 (integer): ");
  shift2 ← _read_int (py "Enter shift2 (integer): ");
  _ ← encrypt_file shift1 shift2;
  _ ← decrypt_file shift1 shift2;
  _ ← verify_decryption;
  mret tt.

End Files.

(** ** A world to evaluate the file layer in *)

(** [str.strip] and [int] on ASCII text: blanks are the space and the
    characters '\t' to '\r'; an integer is an optional sign and decimal
    digits. *)
Definition ascii_blank (c : N) : bool :=
  bool_decide (c = 32 ∨ 9 ≤ c ≤ 13)%N.

Fixpoint ascii_lstrip (s : list N) : list N :=
  match s with
  | c :: rest => if ascii_blank c then ascii_lstrip rest else s
  | [] => []
  end.

Definition ascii_strip (s : list N) : list N :=
  reverse (ascii_lstrip (reverse (ascii_lstrip s))).

Fixpoint ascii_digits (value : Z) (s : list N) : option Z :=
  match s with
  | [] => Some value
  | c :: rest =>
      if decide (ch "0" ≤ c ≤ ch "9")%N
      then ascii_digits (10 * value + (Z.of_N c - Z.of_N (ch "0"))) rest
      else None
  end.

Definition ascii_int (s : list N) : option Z :=
  match s with
  | [] => None
  | c :: rest =>
      if decide (c = ch "-") then
        match rest with [] => None | _ => Z.opp <$> ascii_digits 0 rest end
      else if decide (c = ch "+") then
        match rest with [] => None | _ => ascii_digits 0 rest end
      else ascii_digits 0 s
  end.

(** A script in /srv/hit137 with a two-line raw_text.txt that ends its
    first line with '\r\n', and four lines waiting on standard input. *)
Definition demo_dir : list N := py "/srv/hit137".

Definition demo_text : list N :=
  py "Attack at Dawn!" ++ [13%N; 10%N] ++ py "Zebra 42".

Definition demo_world : world :=
  World {[ py "/srv/hit137/raw_text.txt" := demo_text ]}
        [py "three"; py " 3 "; py "-2"; py "more"]
        [].

(** ** The [result] monad and [mapM] *)

Lemma mapM_fmap_Ok {A B} (f : A → result B) (g : A → B) (l : list A) :
  (∀ x, f x = Ok (g x)) → mapM f l = Ok (g <$> l).
Proof.
  intros Hf. induction l as [|x l IH]; simpl; [done|].
  by rewrite Hf, IH.
Qed.

(** ** Indexing an alphabet without repeated letters *)

Lemma index_lookup (alphabet : list N) (i : nat) (c : N) :
  NoDup alphabet → alphabet !! i = Some c → index alphabet c = Ok (Z.of_nat i).
Proof.
  intros Hnd. revert i. induction Hnd as [|x l Hx Hl IH]; intros i Hi; [done|].
  simpl. destruct i as [|i]; simpl in Hi.
  - injection Hi as ->. by rewrite decide_True.
  - rewrite decide_False.
    + rewrite (IH i Hi). simpl. f_equal. lia.
    + intros ->. apply Hx. by eapply list_elem_of_lookup_2.
Qed.

Section Alphabet.
Variable alphabet : list N.
Hypothesis alphabet_NoDup : NoDup alphabet.

Lemma getitem_lookup (i : nat) (c : N) :
  alphabet !! i = Some c → getitem alphabet (Z.of_nat i) = Ok c.
Proof.
  intros Hi. pose proof (lookup_lt_Some _ _ _ Hi) as Hlt.
  unfold getitem. cbv zeta.
  destruct (decide (Z.of_nat i < 0)); [lia|].
  destruct (decide _); [lia|]. by rewrite Nat2Z.id, Hi.
Qed.

(** A letter at position [i] moves to position [(i + shift) mod n]. *)
Lemma shift_char_lookup (i : nat) (c : N) (shift : Z) :
  alphabet !! i = Some c →
  ∃ d, alphabet !! Z.to_nat ((Z.of_nat i + shift) `mod` Z.of_nat (length alphabet)) = Some d
       ∧ _shift_char c shift alphabet = Ok d.
Proof using alphabet_NoDup.
  intros Hi. pose proof (lookup_lt_Some _ _ _ Hi) as Hlt.
  set (n := Z.of_nat (length alphabet)).
  assert (0 ≤ (Z.of_nat i + shift) `mod` n < n) as Hk by (apply Z.mod_pos_bound; lia).
  destruct (lookup_lt_is_Some_2 alphabet (Z.to_nat ((Z.of_nat i + shift) `mod` n)))
    as [d Hd]; [lia|].
  exists d. split; [done|]. unfold _shift_char.
  rewrite decide_False by (intros Hc; apply Hc; by eapply list_elem_of_lookup_2).
  rewrite (index_lookup alphabet i c alphabet_NoDup Hi). simpl. unfold py_mod.
  destruct (decide (Z.of_nat (length alphabet) = 0)); [lia|]. simpl. fold n.
  rewrite <- (Z2Nat.id ((Z.of_nat i + shift) `mod` n)) by lia.
  by apply getitem_lookup.
Qed.

Lemma shift_char_not_elem (c : N) (shift : Z) :
  c ∉ alphabet → _shift_char c shift alphabet = Ok c.
Proof. intros Hc. unfold _shift_char. by rewrite decide_True. Qed.

(** [_shift_char] always returns. *)
Lemma shift_char_total (c : N) (shift : Z) :
  ∃ d, _shift_char c shift alphabet = Ok d.
Proof using alphabet_NoDup.
  destruct (decide (c ∈ alphabet)) as [Hc|Hc].
  - apply list_elem_of_lookup_1 in Hc as [i Hi].
    destruct (shift_char_lookup i c shift Hi) as (d & _ & Hd). eauto.
  - eauto using shift_char_not_elem.
Qed.

(** Shifting back by the opposite amount undoes a shift. *)
Lemma shift_char_opp (c d : N) (shift : Z) :
  c ∈ alphabet → _shift_char c shift alphabet = Ok d →
  _shift_char d (- shift) alphabet = Ok c.
Proof using alphabet_NoDup.
  intros Hc Hd. apply list_elem_of_lookup_1 in Hc as [i Hi].
  pose proof (lookup_lt_Some _ _ _ Hi) as Hlt.
  destruct (shift_char_lookup i c shift Hi) as (d' & Hd' & Hs).
  rewrite Hs in Hd. injection Hd as ->.
  set (n := Z.of_nat (length alphabet)) in *.
  assert (0 ≤ (Z.of_nat i + shift) `mod` n < n) as Hk by (apply Z.mod_pos_bound; lia).
  destruct (shift_char_lookup _ d (- shift) Hd') as (c' & Hc' & ->).
  f_equal. fold n in Hc'. rewrite Z2Nat.id in Hc' by lia.
  replace (((Z.of_nat i + shift) `mod` n + - shift) `mod` n) with (Z.of_nat i) in Hc'.
  - rewrite Nat2Z.id in Hc'. congruence.
  - rewrite Zplus_mod_idemp_l.
    replace (Z.of_nat i + shift + - shift) with (Z.of_nat i) by lia.
    symmetry. apply Z.mod_small. lia.
Qed.

End Alphabet.

(** ** The module constants, by code point *)

Lemma ALPHA_LOWER_letters : ALPHA_LOWER = letters "a".
Proof. reflexivity. Qed.

Lemma ALPHA_UPPER_letters : ALPHA_UPPER = letters "A".
Proof. reflexivity. Qed.

Lemma letters_lookup (base : ascii) (i : nat) (c : N) :
  letters base !! i = Some c ↔ (i < 26)%nat ∧ c = (ch base + N.of_nat i)%N.
Proof.
  unfold letters. rewrite list_lookup_fmap, fmap_Some. split.
  - intros (j & Hj & ->). apply lookup_seq in Hj as [-> ?]. done.
  - intros [Hi ->]. exists i. split; [|done]. by apply lookup_seq.
Qed.

Lemma letters_NoDup (base : ascii) : NoDup (letters base).
Proof.
  apply NoDup_fmap_2; [|apply NoDup_seq]. intros i j Hij. lia.
Qed.

Lemma letters_length (base : ascii) : length (letters base) = 26%nat.
Proof. reflexivity. Qed.

Lemma position_bound (base : ascii) (c : N) (shift : Z) :
  0 ≤ position base c shift < 26.
Proof. unfold position. apply Z.mod_pos_bound. lia. Qed.

(** On a letter of the alphabet that starts at [base], [_shift_char]
    is [rotate]. *)
Lemma shift_char_letters (base : ascii) (c : N) (shift : Z) :
  (ch base ≤ c < ch base + 26)%N →
  _shift_char c shift (letters base) = Ok (rotate base c shift).
Proof.
  intros Hc.
  assert (letters base !! N.to_nat (c - ch base) = Some c) as Hi
    by (apply letters_lookup; lia).
  destruct (shift_char_lookup _ (letters_NoDup base) _ _ shift Hi) as (d & Hd & ->).
  f_equal. apply letters_lookup in Hd as [_ ->].
  rewrite letters_length. unfold rotate, position.
  replace (Z.of_nat (N.to_nat (c - ch base))) with (Z.of_N c - Z.of_N (ch base)) by lia.
  pose proof (position_bound base c shift) as Hp. unfold position in Hp.
  change (Z.of_nat 26) with 26. lia.
Qed.

Lemma rotate_letter (base : ascii) (c : N) (shift : Z) :
  (ch base ≤ rotate base c shift < ch base + 26)%N.
Proof.
  pose proof (position_bound base c shift). unfold rotate. lia.
Qed.

(** Goals about code-point ranges reduce to linear arithmetic once the
    character literals are evaluated. *)
Ltac eval_ranges :=
  unfold is_letter, in_range in *;
  repeat match goal with
  | |- context [ch ?a] => let v := eval vm_compute in (ch a) in change (ch a) with v
  | H : context [ch ?a] |- _ => let v := eval vm_compute in (ch a) in change (ch a) with v in H
  end.
Ltac solve_range := eval_ranges; lia.

Lemma elem_of_chars (l : list N) (c : N) (lo hi : ascii) :
  l = (λ i, (ch lo + N.of_nat i)%N) <$> seq 0 (length l) →
  (ch hi + 1 = ch lo + N.of_nat (length l))%N →
  c ∈ l ↔ in_range lo hi c.
Proof.
  intros -> Hhi. rewrite length_fmap, length_seq in Hhi.
  rewrite list_elem_of_fmap. unfold in_range. split.
  - intros (i & -> & Hi). apply elem_of_seq in Hi. lia.
  - intros Hc. exists (N.to_nat (c - ch lo)). split; [lia|]. apply elem_of_seq. lia.
Qed.

Lemma elem_of_LOWER_FIRST (c : N) : c ∈ LOWER_FIRST ↔ in_range "a" "m" c.
Proof. unfold LOWER_FIRST. rewrite elem_of_list_to_set. by apply elem_of_chars. Qed.

Lemma elem_of_LOWER_SECOND (c : N) : c ∈ LOWER_SECOND ↔ in_range "n" "z" c.
Proof. unfold LOWER_SECOND. rewrite elem_of_list_to_set. by apply elem_of_chars. Qed.

Lemma elem_of_UPPER_FIRST (c : N) : c ∈ UPPER_FIRST ↔ in_range "A" "M" c.
Proof. unfold UPPER_FIRST. rewrite elem_of_list_to_set. by apply elem_of_chars. Qed.

Lemma elem_of_UPPER_SECOND (c : N) : c ∈ UPPER_SECOND ↔ in_range "N" "Z" c.
Proof. unfold UPPER_SECOND. rewrite elem_of_list_to_set. by apply elem_of_chars. Qed.

Lemma elem_of_ALPHA_LOWER (c : N) : c ∈ ALPHA_LOWER ↔ in_range "a" "z" c.
Proof. by apply elem_of_chars. Qed.

Lemma elem_of_ALPHA_UPPER (c : N) : c ∈ ALPHA_UPPER ↔ in_range "A" "Z" c.
Proof. by apply elem_of_chars. Qed.

(** [_shift_char] on the two alphabets of the module. *)
Lemma shift_char_lower (c : N) (shift : Z) :
  _shift_char c shift ALPHA_LOWER
  = Ok (if decide (in_range "a" "z" c) then rotate "a" c shift else c).
Proof.
  case_decide as Hc.
  - rewrite ALPHA_LOWER_letters. apply shift_char_letters. solve_range.
  - apply shift_char_not_elem. by rewrite elem_of_ALPHA_LOWER.
Qed.

Lemma shift_char_upper (c : N) (shift : Z) :
  _shift_char c shift ALPHA_UPPER
  = Ok (if decide (in_range "A" "Z" c) then rotate "A" c shift else c).
Proof.
  case_decide as Hc.
  - rewrite ALPHA_UPPER_letters. apply shift_char_letters. solve_range.
  - apply shift_char_not_elem. by rewrite elem_of_ALPHA_UPPER.
Qed.

Lemma rotate_lower (c : N) (shift : Z) : in_range "a" "z" (rotate "a" c shift).
Proof. pose proof (rotate_letter "a" c shift). solve_range. Qed.

Lemma rotate_upper (c : N) (shift : Z) : in_range "A" "Z" (rotate "A" c shift).
Proof. pose proof (rotate_letter "A" c shift). solve_range. Qed.

(** Rotating back by the opposite amount returns the letter. *)
Lemma rotate_opp (base : ascii) (c : N) (shift : Z) :
  (ch base ≤ c < ch base + 26)%N →
  rotate base (rotate base c shift) (- shift) = c.
Proof.
  intros Hc. pose proof (position_bound base c shift) as Hp.
  unfold rotate at 1. unfold position at 1. unfold rotate.
  replace (Z.of_N (ch base + Z.to_N (position base c shift))%N - Z.of_N (ch base))
    with (position base c shift) by lia.
  unfold position. rewrite Zplus_mod_idemp_l.
  replace (Z.of_N c - Z.of_N (ch base) + shift + - shift)
    with (Z.of_N c - Z.of_N (ch base)) by lia.
  rewrite Z.mod_small by lia. lia.
Qed.

(** ** The functions of the module, character by character *)

Section CipherProperties.
Variables unicode_lower unicode_upper : N → bool.

Abbreviation islower := (islower unicode_lower).
Abbreviation isupper := (isupper unicode_upper).
Abbreviation _encrypt_char := (_encrypt_char unicode_lower unicode_upper).
Abbreviation _decrypt_char := (_decrypt_char unicode_lower unicode_upper).
Abbreviation encrypt_meta_step := (encrypt_meta_step unicode_lower unicode_upper).
Abbreviation encrypt_meta_loop := (encrypt_meta_loop unicode_lower unicode_upper).
Abbreviation encrypt_text := (encrypt_text unicode_lower unicode_upper).
Abbreviation decrypt_text := (decrypt_text unicode_lower unicode_upper).
Abbreviation encrypt_text_with_meta := (encrypt_text_with_meta unicode_lower unicode_upper).

Lemma islower_lower (c : N) : in_range "a" "z" c → islower c = true.
Proof.
  intros Hc. unfold islower. rewrite decide_True by solve_range.
  apply bool_decide_eq_true. solve_range.
Qed.

Lemma islower_upper (c : N) : in_range "A" "Z" c → islower c = false.
Proof.
  intros Hc. unfold islower. rewrite decide_True by solve_range.
  apply bool_decide_eq_false. solve_range.
Qed.

Lemma isupper_upper (c : N) : in_range "A" "Z" c → isupper c = true.
Proof.
  intros Hc. unfold isupper. rewrite decide_True by solve_range.
  apply bool_decide_eq_true. solve_range.
Qed.

(** Rewrites the membership tests of the source into range tests and
    decides them by the hypotheses at hand. *)
Ltac decide_sets :=
  repeat first
    [ rewrite decide_True by (first
        [ apply elem_of_LOWER_FIRST | apply elem_of_LOWER_SECOND
        | apply elem_of_UPPER_FIRST | apply elem_of_UPPER_SECOND | idtac ];
        solve_range)
    | rewrite decide_False by (first
        [ rewrite elem_of_LOWER_FIRST | rewrite elem_of_LOWER_SECOND
        | rewrite elem_of_UPPER_FIRST | rewrite elem_of_UPPER_SECOND | idtac ];
        solve_range) ].

Lemma encrypt_meta_step_spec (c : N) (shift1 shift2 : Z) :
  encrypt_meta_step c shift1 shift2
  = Ok (spec_encrypt_char shift1 shift2 c, code (classify c)).
Proof.
  unfold encrypt_meta_step, spec_encrypt_char, classify.
  rewrite !shift_char_lower, !shift_char_upper, Z.pow_2_r.
  destruct (decide (in_range "a" "m" c)) as [H1|H1];
    [rewrite islower_lower by solve_range; by decide_sets|].
  destruct (decide (in_range "n" "z" c)) as [H2|H2];
    [rewrite islower_lower by solve_range; by decide_sets|].
  destruct (decide (in_range "A" "M" c)) as [H3|H3];
    [rewrite islower_upper, isupper_upper by solve_range; by decide_sets|].
  destruct (decide (in_range "N" "Z" c)) as [H4|H4];
    [rewrite islower_upper, isupper_upper by solve_range; by decide_sets|].
  destruct (islower c), (isupper c); by decide_sets.
Qed.

Lemma encrypt_char_spec (c : N) (shift1 shift2 : Z) :
  _encrypt_char c shift1 shift2 = Ok (spec_encrypt_char shift1 shift2 c).
Proof.
  unfold _encrypt_char, spec_encrypt_char, classify.
  rewrite !shift_char_lower, !shift_char_upper, Z.pow_2_r.
  destruct (decide (in_range "a" "m" c)) as [H1|H1];
    [rewrite islower_lower by solve_range; by decide_sets|].
  destruct (decide (in_range "n" "z" c)) as [H2|H2];
    [rewrite islower_lower by solve_range; by decide_sets|].
  destruct (decide (in_range "A" "M" c)) as [H3|H3];
    [rewrite islower_upper, isupper_upper by solve_range; by decide_sets|].
  destruct (decide (in_range "N" "Z" c)) as [H4|H4];
    [rewrite islower_upper, isupper_upper by solve_range; by decide_sets|].
  destruct (islower c), (isupper c); by decide_sets.
Qed.

Lemma decrypt_meta_step_spec (c m : N) (shift1 shift2 : Z) :
  decrypt_meta_step c m shift1 shift2
  = Ok (spec_decode_with_metadata_char shift1 shift2 c m).
Proof.
  unfold decrypt_meta_step, spec_decode_with_metadata_char.
  rewrite !shift_char_lower, !shift_char_upper, Z.pow_2_r.
  repeat case_decide; done.
Qed.

Lemma decrypt_char_spec (c : N) (shift1 shift2 : Z) :
  _decrypt_char c shift1 shift2 = Ok (spec_decode_heuristic_char shift1 shift2 c).
Proof.
  unfold _decrypt_char, spec_decode_heuristic_char.
  rewrite !shift_char_lower, !shift_char_upper, Z.pow_2_r. simpl.
  destruct (decide (in_range "a" "z" c)) as [H1|H1].
  - rewrite islower_lower by done. cbv zeta.
    destruct (decide (in_range "a" "m" _)); by decide_sets.
  - destruct (decide (in_range "A" "Z" c)) as [H2|H2].
    + rewrite islower_upper, isupper_upper by done. cbv zeta.
      destruct (decide (in_range "A" "M" _)); by decide_sets.
    + destruct (islower c), (isupper c); by decide_sets.
Qed.

(** ** The functions of the module, on a whole text *)

Lemma encrypt_text_spec (text : list N) (shift1 shift2 : Z) :
  encrypt_text text shift1 shift2 = Ok (spec_encrypt_char shift1 shift2 <$> text).
Proof. apply mapM_fmap_Ok. intros c. apply encrypt_char_spec. Qed.

Lemma decrypt_text_spec (text : list N) (shift1 shift2 : Z) :
  decrypt_text text shift1 shift2
  = Ok (spec_decode_heuristic_char shift1 shift2 <$> text).
Proof. apply mapM_fmap_Ok. intros c. apply decrypt_char_spec. Qed.

Lemma encrypt_meta_loop_spec (text : list N) (shift1 shift2 : Z)
    (encrypted_chars meta_chars : list N) :
  encrypt_meta_loop text shift1 shift2 encrypted_chars meta_chars
  = Ok (encrypted_chars ++ (spec_encrypt_char shift1 shift2 <$> text),
        meta_chars ++ (code ∘ classify <$> text)).
Proof.
  revert encrypted_chars meta_chars.
  induction text as [|c rest IH]; intros E M; simpl.
  - by rewrite !app_nil_r.
  - rewrite encrypt_meta_step_spec. simpl. rewrite IH.
    by rewrite <- !app_assoc.
Qed.

Lemma encrypt_text_with_meta_spec (text : list N) (shift1 shift2 : Z) :
  encrypt_text_with_meta text shift1 shift2
  = Ok (spec_encrypt_char shift1 shift2 <$> text, code ∘ classify <$> text).
Proof. apply encrypt_meta_loop_spec. Qed.

End CipherProperties.

Lemma decrypt_meta_loop_spec (pairs : list (N * N)) (shift1 shift2 : Z)
    (result_chars : list N) :
  decrypt_meta_loop pairs shift1 shift2 result_chars
  = Ok (result_chars
        ++ ((λ p, spec_decode_with_metadata_char shift1 shift2 p.1 p.2) <$> pairs)).
Proof.
  revert result_chars. induction pairs as [|[c m] rest IH]; intros R; simpl.
  - by rewrite app_nil_r.
  - rewrite decrypt_meta_step_spec. simpl. rewrite IH. by rewrite <- app_assoc.
Qed.

Lemma decrypt_text_with_meta_spec (ciphertext metadata : list N) (shift1 shift2 : Z) :
  decrypt_text_with_meta ciphertext metadata shift1 shift2
  = if decide (length ciphertext = length metadata)
    then Ok ((λ p, spec_decode_with_metadata_char shift1 shift2 p.1 p.2)
             <$> zip ciphertext metadata)
    else Raise length_mismatch.
Proof.
  unfold decrypt_text_with_meta. repeat case_decide; try done.
  apply decrypt_meta_loop_spec.
Qed.

(** The inverse table undoes the forward table when it is given the code
    of the category. *)
Lemma rotate_opp' (base : ascii) (c : N) (shift : Z) :
  (ch base ≤ c < ch base + 26)%N →
  rotate base (rotate base c (- shift)) shift = c.
Proof.
  intros Hc. rewrite <- (Z.opp_involutive shift) at 2. by apply rotate_opp.
Qed.

Lemma spec_round_trip_char (shift1 shift2 : Z) (c : N) :
  spec_decode_with_metadata_char shift1 shift2
    (spec_encrypt_char shift1 shift2 c) (code (classify c)) = c.
Proof.
  unfold spec_encrypt_char, classify, spec_decode_with_metadata_char.
  destruct (decide (in_range "a" "m" c)) as [H1|H1]; simpl.
  { rewrite decide_True by apply rotate_lower. apply rotate_opp. solve_range. }
  destruct (decide (in_range "n" "z" c)) as [H2|H2]; simpl.
  { rewrite decide_True by apply rotate_lower. apply rotate_opp'. solve_range. }
  destruct (decide (in_range "A" "M" c)) as [H3|H3]; simpl.
  { rewrite decide_True by apply rotate_upper. apply rotate_opp'. solve_range. }
  destruct (decide (in_range "N" "Z" c)) as [H4|H4]; simpl.
  { rewrite decide_True by apply rotate_upper. apply rotate_opp. solve_range. }
  done.
Qed.

Lemma spec_round_trip (shift1 shift2 : Z) (text : list N) :
  (λ p, spec_decode_with_metadata_char shift1 shift2 p.1 p.2)
    <$> zip (spec_encrypt_char shift1 shift2 <$> text) (code ∘ classify <$> text)
  = text.
Proof.
  induction text as [|c rest IH]; [done|].
  rewrite !fmap_cons. cbn [zip zip_with]. rewrite fmap_cons. cbn [fst snd compose].
  by rewrite spec_round_trip_char, IH.
Qed.

Lemma spec_passthrough_encrypt (shift1 shift2 : Z) (c : N) :
  ¬ is_letter c →
  spec_encrypt_char shift1 shift2 c = c ∧ classify c = passthrough.
Proof.
  intros Hc. unfold spec_encrypt_char, classify.
  repeat case_decide; try done; exfalso; apply Hc; solve_range.
Qed.

Lemma spec_passthrough_heuristic (shift1 shift2 : Z) (c : N) :
  ¬ is_letter c → spec_decode_heuristic_char shift1 shift2 c = c.
Proof.
  intros Hc. unfold spec_decode_heuristic_char.
  rewrite !decide_False; [done | intros ?; apply Hc; by right | intros ?; apply Hc; by left].
Qed.

Lemma spec_passthrough_metadata (shift1 shift2 : Z) (c m : N) :
  ¬ is_letter c → spec_decode_with_metadata_char shift1 shift2 c m = c.
Proof.
  intros Hc. unfold spec_decode_with_metadata_char.
  repeat case_decide; try done; exfalso; apply Hc; first [by left | by right].
Qed.

Lemma spec_other_code (shift1 shift2 : Z) (c m : N) :
  m ∉ py "lLuU" → spec_decode_with_metadata_char shift1 shift2 c m = c.
Proof.
  intros Hm. unfold spec_decode_with_metadata_char.
  repeat case_decide; try done; subst m; exfalso; apply Hm; simpl;
    rewrite !elem_of_cons; tauto.
Qed.

Lemma lookup_decoded (shift1 shift2 : Z) (ciphertext metadata : list N)
    (i : nat) (c m : N) :
  ciphertext !! i = Some c → metadata !! i = Some m →
  ((λ p, spec_decode_with_metadata_char shift1 shift2 p.1 p.2)
     <$> zip ciphertext metadata) !! i
  = Some (spec_decode_with_metadata_char shift1 shift2 c m).
Proof.
  intros Hc Hm. rewrite list_lookup_fmap.
  by rewrite (proj2 (lookup_zip_with_Some pair ciphertext metadata i (c, m)))
    by eauto.
Qed.

(** ** The properties of the specification *)

Section Claims.
Variables unicode_lower unicode_upper : N → bool.

Abbreviation _encrypt_char := (_encrypt_char unicode_lower unicode_upper).
Abbreviation _decrypt_char := (_decrypt_char unicode_lower unicode_upper).
Abbreviation encrypt_text := (encrypt_text unicode_lower unicode_upper).
Abbreviation decrypt_text := (decrypt_text unicode_lower unicode_upper).
Abbreviation encrypt_text_with_meta :=
  (encrypt_text_with_meta unicode_lower unicode_upper).

(** C1.  Round trip in metadata mode: for every text and every pair of
    integer keys, [encrypt_text_with_meta] returns a ciphertext and a
    metadata string, and [decrypt_text_with_meta] on those two with the
    same keys returns the text exactly. *)
Theorem metadata_round_trip (text : list N) (shift1 shift2 : Z) :
  ∃ ciphertext metadata,
    encrypt_text_with_meta text shift1 shift2 = Ok (ciphertext, metadata)
    ∧ decrypt_text_with_meta ciphertext metadata shift1 shift2 = Ok text.
Proof.
  eexists _, _. split; [apply encrypt_text_with_meta_spec|].
  rewrite decrypt_text_with_meta_spec.
  rewrite decide_True by (by rewrite !length_fmap).
  by rewrite spec_round_trip.
Qed.

(** C2, as amended.  [encrypt_text_with_meta("Hello, World!", 3, 2)]
    returns the ciphertext "Ekrrj, Ajmrj!" and the metadata
    "ulllL00ULLll0": H is upper_first, e, l, l, l, d are lower_first,
    o, o, r are lower_second, W is upper_second, and the comma, the space
    and the exclamation mark are passthrough.  [decrypt_text_with_meta]
    on that ciphertext with that metadata and the keys 3, 2 returns
    "Hello, World!". *)
Theorem hello_world_example :
  encrypt_text_with_meta (py "Hello, World!") 3 2
    = Ok (py "Ekrrj, Ajmrj!", py "ulllL00ULLll0")
  ∧ classify <$> py "Hello, World!"
    = [upper_first; lower_first; lower_first; lower_first; lower_second;
       passthrough; passthrough;
       upper_second; lower_second; lower_second; lower_first; lower_first;
       passthrough]
  ∧ decrypt_text_with_meta (py "Ekrrj, Ajmrj!") (py "ulllL00ULLll0") 3 2
    = Ok (py "Hello, World!").
Proof. repeat split; by vm_compute. Qed.

(** C4.  The forward transform applies the shift of the category to
    every character: a-m by [shift1 * shift2], n-z by
    [- (shift1 + shift2)], A-M by [- shift1], N-Z by [shift2 * shift2],
    anything else unchanged ([spec_encrypt_char]).  A letter at index [i]
    of its alphabet goes to the letter at index [(i + shift) mod 26], and
    that index lies in [0, 26) for every integer shift. *)
Theorem encrypt_applies_category_shift (text : list N) (shift1 shift2 : Z) :
  encrypt_text text shift1 shift2 = Ok (spec_encrypt_char shift1 shift2 <$> text)
  ∧ fst <$> encrypt_text_with_meta text shift1 shift2
    = Ok (spec_encrypt_char shift1 shift2 <$> text)
  ∧ (∀ c, _encrypt_char c shift1 shift2 = Ok (spec_encrypt_char shift1 shift2 c))
  ∧ (∀ alphabet base, (alphabet, base) ∈ [(ALPHA_LOWER, "a"%char); (ALPHA_UPPER, "A"%char)] →
     ∀ (i : nat) (c : N) (shift : Z), alphabet !! i = Some c →
       let k := (Z.of_nat i + shift) `mod` 26 in
       index alphabet c = Ok (Z.of_nat i)
       ∧ 0 ≤ k < 26
       ∧ _shift_char c shift alphabet = Ok (rotate base c shift)
       ∧ alphabet !! Z.to_nat k = Some (rotate base c shift)).
Proof.
  split; [apply encrypt_text_spec|].
  split; [by rewrite encrypt_text_with_meta_spec|].
  split; [intros c; apply encrypt_char_spec|].
  intros alphabet base Hab i c shift Hi k.
  assert (alphabet = letters base) as ->.
  { rewrite !elem_of_cons, elem_of_nil in Hab.
    destruct Hab as [[= -> ->]|[[= -> ->]|[]]]; done. }
  pose proof (letters_NoDup base) as Hnd.
  destruct (shift_char_lookup _ Hnd i c shift Hi) as (d & Hd & Hs).
  rewrite letters_length in Hd. fold k in Hd.
  apply letters_lookup in Hi as Hi'. destruct Hi' as [Hlt Hc].
  rewrite shift_char_letters in Hs by lia. injection Hs as <-.
  split; [by apply index_lookup|].
  split; [apply Z.mod_pos_bound; lia|].
  split; [apply shift_char_letters; lia | done].
Qed.

(** C5.  Length preservation: [encrypt_text] returns a string as long as
    the text, and [encrypt_text_with_meta] a ciphertext and a metadata
    string each as long as the text. *)
Theorem encrypt_preserves_length (text : list N) (shift1 shift2 : Z) :
  (∃ out, encrypt_text text shift1 shift2 = Ok out ∧ length out = length text)
  ∧ (∃ ciphertext metadata,
       encrypt_text_with_meta text shift1 shift2 = Ok (ciphertext, metadata)
       ∧ length ciphertext = length text ∧ length metadata = length text).
Proof.
  split.
  - eexists. split; [apply encrypt_text_spec|]. apply length_fmap.
  - eexists _, _. split; [apply encrypt_text_with_meta_spec|].
    by rewrite !length_fmap.
Qed.

(** C6.  The heuristic decode never fails and maps each character on its
    own by [spec_decode_heuristic_char]: for a lowercase letter, the
    candidate shifted by [- (shift1 * shift2)] when it lies in a-m and
    otherwise the letter shifted by [shift1 + shift2]; for an uppercase
    letter, the candidate shifted by [shift1] when it lies in A-M and
    otherwise the letter shifted by [- (shift2 * shift2)]; any other
    character unchanged. *)
Theorem heuristic_decode_rule (text : list N) (shift1 shift2 : Z) :
  decrypt_text text shift1 shift2
    = Ok (spec_decode_heuristic_char shift1 shift2 <$> text)
  ∧ ∀ c, _decrypt_char c shift1 shift2
         = Ok (spec_decode_heuristic_char shift1 shift2 c).
Proof.
  split; [apply decrypt_text_spec | intros c; apply decrypt_char_spec].
Qed.

(** C7.  Passthrough fixed points: a character of the text that is
    neither a-z nor A-Z stands unchanged at its position in the results
    of [encrypt_text], [encrypt_text_with_meta], [decrypt_text] and
    [decrypt_text_with_meta] (under any metadata of the right length),
    for all keys, and its metadata code is '0'. *)
Theorem passthrough_fixed_point (text : list N) (i : nat) (c : N)
    (shift1 shift2 : Z) :
  text !! i = Some c → ¬ is_letter c →
  (∃ out, encrypt_text text shift1 shift2 = Ok out ∧ out !! i = Some c)
  ∧ (∃ ciphertext metadata,
       encrypt_text_with_meta text shift1 shift2 = Ok (ciphertext, metadata)
       ∧ ciphertext !! i = Some c ∧ metadata !! i = Some (ch "0"))
  ∧ (∃ out, decrypt_text text shift1 shift2 = Ok out ∧ out !! i = Some c)
  ∧ (∀ metadata, length metadata = length text →
       ∃ out, decrypt_text_with_meta text metadata shift1 shift2 = Ok out
              ∧ out !! i = Some c).
Proof.
  intros Hi Hc.
  destruct (spec_passthrough_encrypt shift1 shift2 c Hc) as [Henc Hcat].
  repeat split.
  - eexists. split; [apply encrypt_text_spec|].
    rewrite list_lookup_fmap, Hi. simpl. by rewrite Henc.
  - eexists _, _. split; [apply encrypt_text_with_meta_spec|]. split.
    + rewrite list_lookup_fmap, Hi. simpl. by rewrite Henc.
    + rewrite list_lookup_fmap, Hi. simpl. by rewrite Hcat.
  - eexists. split; [apply decrypt_text_spec|].
    rewrite list_lookup_fmap, Hi. simpl.
    by rewrite spec_passthrough_heuristic.
  - intros metadata Hlen.
    destruct (lookup_lt_is_Some_2 metadata i) as [m Hm].
    { rewrite Hlen. by eapply lookup_lt_Some. }
    eexists. split.
    + rewrite decrypt_text_with_meta_spec. by rewrite decide_True.
    + rewrite (lookup_decoded _ _ _ _ _ _ _ Hi Hm).
      by rewrite spec_passthrough_metadata.
Qed.

(** C8.  The forward transform distributes over concatenation:
    encrypting [s ++ t] gives the result for [s] followed by the result
    for [t], in [encrypt_text] and in both components of
    [encrypt_text_with_meta]. *)
Theorem encrypt_distributes_over_concatenation (s t : list N)
    (shift1 shift2 : Z) :
  (∃ a b, encrypt_text s shift1 shift2 = Ok a
          ∧ encrypt_text t shift1 shift2 = Ok b
          ∧ encrypt_text (s ++ t) shift1 shift2 = Ok (a ++ b))
  ∧ (∃ a ma b mb,
       encrypt_text_with_meta s shift1 shift2 = Ok (a, ma)
       ∧ encrypt_text_with_meta t shift1 shift2 = Ok (b, mb)
       ∧ encrypt_text_with_meta (s ++ t) shift1 shift2 = Ok (a ++ b, ma ++ mb)).
Proof.
  split.
  - eexists _, _. rewrite !encrypt_text_spec. by rewrite fmap_app.
  - eexists _, _, _, _. rewrite !encrypt_text_with_meta_spec.
    by rewrite !fmap_app.
Qed.

(** C9.  The plain encoder and the metadata-producing encoder agree on
    the ciphertext: [encrypt_text] returns the first component of what
    [encrypt_text_with_meta] returns. *)
Theorem encoders_agree (text : list N) (shift1 shift2 : Z) :
  ∃ ciphertext metadata,
    encrypt_text_with_meta text shift1 shift2 = Ok (ciphertext, metadata)
    ∧ encrypt_text text shift1 shift2 = Ok ciphertext.
Proof.
  eexists _, _. split; [apply encrypt_text_with_meta_spec|].
  apply encrypt_text_spec.
Qed.

End Claims.

(** C3.  [decrypt_text_with_meta] raises the length-mismatch [ValueError],
    and returns nothing, whenever the ciphertext and the metadata differ in
    length; when the lengths agree it returns a string; and on "ab" with
    metadata "l" and keys 3, 4 it raises that error. *)
Theorem length_mismatch_error (ciphertext metadata : list N) (shift1 shift2 : Z) :
  (length ciphertext ≠ length metadata →
     decrypt_text_with_meta ciphertext metadata shift1 shift2 = Raise length_mismatch)
  ∧ (length ciphertext = length metadata →
     ∃ out, decrypt_text_with_meta ciphertext metadata shift1 shift2 = Ok out)
  ∧ decrypt_text_with_meta (py "ab") (py "l") 3 4 = Raise length_mismatch.
Proof.
  rewrite decrypt_text_with_meta_spec. repeat split.
  - intros Hne. by rewrite decide_False.
  - intros Heq. rewrite decide_True by done. by eexists.
Qed.

(** C10.  When the lengths agree, [decrypt_text_with_meta] returns, and at
    every position whose metadata character is none of 'l', 'L', 'u', 'U'
    the result holds the ciphertext character unchanged. *)
Theorem unknown_code_is_passthrough (ciphertext metadata : list N)
    (shift1 shift2 : Z) :
  length ciphertext = length metadata →
  ∃ out, decrypt_text_with_meta ciphertext metadata shift1 shift2 = Ok out
         ∧ ∀ (i : nat) (c m : N),
             ciphertext !! i = Some c → metadata !! i = Some m →
             m ∉ py "lLuU" → out !! i = Some c.
Proof.
  intros Hlen. eexists. split.
  - rewrite decrypt_text_with_meta_spec. by rewrite decide_True.
  - intros i c m Hc Hm Hcode. rewrite (lookup_decoded _ _ _ _ _ _ _ Hc Hm).
    by rewrite spec_other_code.
Qed.

(** ** The theorems at concrete inputs *)

(** The metadata of "Hello, World!" under the keys 3, 2 is not
    "uLLLL00ULLLL0", whatever the Unicode tables: e, l, l, l and d lie in
    a-m and are recorded as 'l'. *)
Lemma hello_world_metadata_is_not_uLLLL00ULLLL0 :
  ¬ ∃ unicode_lower unicode_upper ciphertext,
      encrypt_text_with_meta unicode_lower unicode_upper (py "Hello, World!") 3 2
      = Ok (ciphertext, py "uLLLL00ULLLL0").
Proof.
  intros (unicode_lower & unicode_upper & ciphertext & H).
  vm_compute in H. discriminate H.
Qed.

(** In "café 7" the character 'é' (U+00E9, lowercase but outside a-z) at
    position 3 stays in place under every function of the module. *)
Lemma passthrough_fixed_point_witness :
  let text := py "caf" ++ [233%N] ++ py " 7" in
  (∃ out, encrypt_text latin1_lower latin1_upper text 3 2 = Ok out
          ∧ out !! 3%nat = Some 233%N)
  ∧ (∃ ciphertext metadata,
       encrypt_text_with_meta latin1_lower latin1_upper text 3 2
       = Ok (ciphertext, metadata)
       ∧ ciphertext !! 3%nat = Some 233%N ∧ metadata !! 3%nat = Some (ch "0"))
  ∧ (∃ out, decrypt_text latin1_lower latin1_upper text 3 2 = Ok out
            ∧ out !! 3%nat = Some 233%N)
  ∧ (∀ metadata, length metadata = length text →
       ∃ out, decrypt_text_with_meta text metadata 3 2 = Ok out
              ∧ out !! 3%nat = Some 233%N).
Proof.
  apply (passthrough_fixed_point latin1_lower latin1_upper
           (py "caf" ++ [233%N] ++ py " 7") 3 233%N 3 2).
  - reflexivity.
  - solve_range.
Defined.

(** On "Ab?" with the metadata "x0L" the characters under 'x' and '0' are
    returned as they are. *)
Lemma unknown_code_is_passthrough_witness :
  ∃ out, decrypt_text_with_meta (py "Ab?") (py "x0L") 3 4 = Ok out
         ∧ ∀ (i : nat) (c m : N),
             py "Ab?" !! i = Some c → py "x0L" !! i = Some m →
             m ∉ py "lLuU" → out !! i = Some c.
Proof.
  apply (unknown_code_is_passthrough (py "Ab?") (py "x0L") 3 4).
  reflexivity.
Defined.

(** ** Further properties of [_shift_char] *)

Lemma index_elem_of (alphabet : list N) (c : N) :
  c ∈ alphabet →
  ∃ i : nat, index alphabet c = Ok (Z.of_nat i) ∧ alphabet !! i = Some c.
Proof.
  induction alphabet as [|x l IH]; intros Hc; [by apply elem_of_nil in Hc|].
  simpl. destruct (decide (x = c)) as [->|Hne]; [by exists 0%nat|].
  apply elem_of_cons in Hc as [->|Hc]; [done|].
  destruct (IH Hc) as (i & Hi & Hl). exists (S i). rewrite Hi. simpl.
  split; [f_equal; lia | done].
Qed.

(** The letter [_shift_char] returns for a member of the alphabet found at
    index [i] by [index]. *)
Lemma shift_char_index (alphabet : list N) (c : N) (shift : Z) (i : nat) :
  c ∈ alphabet → index alphabet c = Ok (Z.of_nat i) →
  ∃ d, alphabet !! Z.to_nat ((Z.of_nat i + shift) `mod` Z.of_nat (length alphabet)) = Some d
       ∧ _shift_char c shift alphabet = Ok d.
Proof.
  intros Hc Hi.
  destruct (index_elem_of alphabet c Hc) as (i' & Hi' & Hl).
  rewrite Hi in Hi'. injection Hi' as Hii. apply Nat2Z.inj in Hii as <-.
  pose proof (lookup_lt_Some _ _ _ Hl) as Hlt.
  set (n := Z.of_nat (length alphabet)).
  assert (0 ≤ (Z.of_nat i + shift) `mod` n < n) as Hk by (apply Z.mod_pos_bound; lia).
  destruct (lookup_lt_is_Some_2 alphabet (Z.to_nat ((Z.of_nat i + shift) `mod` n)))
    as [d Hd]; [lia|].
  exists d. split; [done|]. unfold _shift_char.
  rewrite decide_False by (by intros []).
  rewrite Hi. simpl. unfold py_mod.
  destruct (decide (Z.of_nat (length alphabet) = 0)); [lia|]. simpl. fold n.
  rewrite <- (Z2Nat.id ((Z.of_nat i + shift) `mod` n)) by lia.
  by apply getitem_lookup.
Qed.

(** X1.  [_shift_char] never raises, whatever the alphabet (empty, or with
    repeated letters), the character and the shift: a character of the
    alphabet is sent to a character of the alphabet, and any other
    character is returned as it is. *)
Theorem shift_char_never_raises (c : N) (shift : Z) (alphabet : list N) :
  ∃ d, _shift_char c shift alphabet = Ok d
       ∧ (c ∈ alphabet → d ∈ alphabet)
       ∧ (c ∉ alphabet → d = c).
Proof.
  destruct (decide (c ∈ alphabet)) as [Hc|Hc].
  - destruct (index_elem_of alphabet c Hc) as (i & Hi & _).
    destruct (shift_char_index alphabet c shift i Hc Hi) as (d & Hd & Hs).
    exists d. split; [done|]. split; [|done].
    intros _. by eapply list_elem_of_lookup_2.
  - exists c. split; [by apply shift_char_not_elem|]. by split.
Qed.

(** X2.  In an alphabet without repeated letters, shifting by [a] and then
    by [b] is shifting by [a + b]; so shifting back by [- a] returns the
    character. *)
Theorem shift_char_compose (alphabet : list N) (c d : N) (a b : Z) :
  NoDup alphabet →
  _shift_char c a alphabet = Ok d →
  _shift_char d b alphabet = _shift_char c (a + b) alphabet
  ∧ _shift_char d (- a) alphabet = Ok c.
Proof.
  intros Hnd Hd. destruct (decide (c ∈ alphabet)) as [Hc|Hc].
  - apply list_elem_of_lookup_1 in Hc as [i Hi].
    pose proof (lookup_lt_Some _ _ _ Hi) as Hlt.
    destruct (shift_char_lookup alphabet Hnd i c a Hi) as (d' & Hd' & Hs).
    rewrite Hs in Hd. injection Hd as ->.
    set (n := Z.of_nat (length alphabet)) in *.
    assert (0 ≤ (Z.of_nat i + a) `mod` n < n) as Hk by (apply Z.mod_pos_bound; lia).
    assert (∀ t, _shift_char d t alphabet = _shift_char c (a + t) alphabet) as Hcomp.
    { intros t.
      destruct (shift_char_lookup alphabet Hnd _ d t Hd') as (e & He & ->).
      destruct (shift_char_lookup alphabet Hnd i c (a + t) Hi) as (e' & He' & ->).
      fold n in He, He'. rewrite Z2Nat.id in He by lia.
      rewrite Zplus_mod_idemp_l in He.
      replace (Z.of_nat i + a + t) with (Z.of_nat i + (a + t)) in He by lia.
      congruence. }
    split; [apply Hcomp|]. rewrite Hcomp.
    destruct (shift_char_lookup alphabet Hnd i c (a + - a) Hi) as (e & He & ->).
    fold n in He. replace (Z.of_nat i + (a + - a)) with (Z.of_nat i) in He by lia.
    rewrite Z.mod_small, Nat2Z.id in He by lia. congruence.
  - rewrite shift_char_not_elem in Hd by done. injection Hd as <-.
    by rewrite !shift_char_not_elem.
Qed.

Lemma shift_char_compose_witness :
  _shift_char (ch "d") (- 7) ALPHA_LOWER = _shift_char (ch "y") (5 + - 7) ALPHA_LOWER
  ∧ _shift_char (ch "d") (- 5) ALPHA_LOWER = Ok (ch "y").
Proof.
  apply (shift_char_compose ALPHA_LOWER (ch "y") (ch "d") 5 (- 7)).
  - apply (letters_NoDup "a").
  - reflexivity.
Defined.

(** ** Further properties of the text functions *)

Lemma position_rotate (base : ascii) (c : N) (s t : Z) :
  position base (rotate base c s) t = position base c (s + t).
Proof.
  pose proof (position_bound base c s) as Hp. unfold rotate.
  unfold position at 1.
  replace (Z.of_N (ch base + Z.to_N (position base c s)) - Z.of_N (ch base))
    with (position base c s) by lia.
  unfold position. rewrite Zplus_mod_idemp_l. f_equal. lia.
Qed.

Lemma rotate_rotate (base : ascii) (c : N) (s t : Z) :
  rotate base (rotate base c s) t = rotate base c (s + t).
Proof. unfold rotate at 1 3. by rewrite position_rotate. Qed.

Lemma rotate_mod (base : ascii) (c : N) (s t : Z) :
  s `mod` 26 = t `mod` 26 → rotate base c s = rotate base c t.
Proof.
  intros Hst. unfold rotate, position. do 2 f_equal.
  rewrite (Z.add_mod _ s), (Z.add_mod _ t) by lia. by rewrite Hst.
Qed.

Lemma rotate_0 (base : ascii) (c : N) (s : Z) :
  (ch base ≤ c < ch base + 26)%N → s `mod` 26 = 0 → rotate base c s = c.
Proof.
  intros Hc Hs. rewrite (rotate_mod base c s 0) by done.
  unfold rotate, position. rewrite Z.add_0_r, Z.mod_small by lia. lia.
Qed.

(** The keys enter the tables only through residues modulo 26. *)
Lemma mod_26_mul (s1 s2 a b : Z) :
  ((s1 + 26 * a) * (s2 + 26 * b)) `mod` 26 = (s1 * s2) `mod` 26.
Proof.
  replace ((s1 + 26 * a) * (s2 + 26 * b))
    with (s1 * s2 + (s1 * b + a * s2 + 26 * a * b) * 26) by ring.
  apply Z_mod_plus_full.
Qed.

Lemma mod_26_opp (x y : Z) : x `mod` 26 = y `mod` 26 → (- x) `mod` 26 = (- y) `mod` 26.
Proof. intros Hxy. Z.div_mod_to_equations. lia. Qed.

Lemma mod_26_add (x y a b : Z) :
  (x + 26 * a + (y + 26 * b)) `mod` 26 = (x + y) `mod` 26.
Proof.
  replace (x + 26 * a + (y + 26 * b)) with (x + y + (a + b) * 26) by ring.
  apply Z_mod_plus_full.
Qed.

Lemma mod_26_shift (x a : Z) : (x + 26 * a) `mod` 26 = x `mod` 26.
Proof. rewrite (Z.mul_comm 26 a). apply Z_mod_plus_full. Qed.

Lemma spec_encrypt_char_periodic (s1 s2 a b : Z) (c : N) :
  spec_encrypt_char (s1 + 26 * a) (s2 + 26 * b) c = spec_encrypt_char s1 s2 c.
Proof.
  unfold spec_encrypt_char. destruct (classify c); [| | | |done];
    apply rotate_mod;
    auto using mod_26_mul, mod_26_opp, mod_26_add, mod_26_shift.
Qed.

Lemma spec_decode_with_metadata_char_periodic (s1 s2 a b : Z) (c m : N) :
  spec_decode_with_metadata_char (s1 + 26 * a) (s2 + 26 * b) c m
  = spec_decode_with_metadata_char s1 s2 c m.
Proof.
  unfold spec_decode_with_metadata_char. repeat case_decide; try done;
    apply rotate_mod;
    auto using mod_26_mul, mod_26_opp, mod_26_add, mod_26_shift.
Qed.

Lemma spec_decode_heuristic_char_periodic (s1 s2 a b : Z) (c : N) :
  spec_decode_heuristic_char (s1 + 26 * a) (s2 + 26 * b) c
  = spec_decode_heuristic_char s1 s2 c.
Proof.
  unfold spec_decode_heuristic_char.
  rewrite (rotate_mod "a" c (- ((s1 + 26 * a) * (s2 + 26 * b))) (- (s1 * s2)))
    by auto using mod_26_mul, mod_26_opp.
  rewrite (rotate_mod "a" c (s1 + 26 * a + (s2 + 26 * b)) (s1 + s2))
    by auto using mod_26_add.
  rewrite (rotate_mod "A" c (s1 + 26 * a) s1) by auto using mod_26_shift.
  rewrite (rotate_mod "A" c (- ((s2 + 26 * b) * (s2 + 26 * b))) (- (s2 * s2)))
    by auto using mod_26_mul, mod_26_opp.
  done.
Qed.

(** X3.  The keys count modulo 26 only: adding multiples of 26 to
    [shift1] and to [shift2] changes the result of none of the four text
    functions. *)
Theorem keys_count_modulo_26 (unicode_lower unicode_upper : N → bool)
    (text metadata : list N) (shift1 shift2 a b : Z) :
  encrypt_text unicode_lower unicode_upper text (shift1 + 26 * a) (shift2 + 26 * b)
  = encrypt_text unicode_lower unicode_upper text shift1 shift2
  ∧ encrypt_text_with_meta unicode_lower unicode_upper text
      (shift1 + 26 * a) (shift2 + 26 * b)
    = encrypt_text_with_meta unicode_lower unicode_upper text shift1 shift2
  ∧ decrypt_text unicode_lower unicode_upper text (shift1 + 26 * a) (shift2 + 26 * b)
    = decrypt_text unicode_lower unicode_upper text shift1 shift2
  ∧ decrypt_text_with_meta text metadata (shift1 + 26 * a) (shift2 + 26 * b)
    = decrypt_text_with_meta text metadata shift1 shift2.
Proof.
  rewrite !encrypt_text_spec, !encrypt_text_with_meta_spec, !decrypt_text_spec,
    !decrypt_text_with_meta_spec.
  repeat split.
  - f_equal. apply list_fmap_ext. intros _ c _. apply spec_encrypt_char_periodic.
  - do 2 f_equal. apply list_fmap_ext. intros _ c _. apply spec_encrypt_char_periodic.
  - f_equal. apply list_fmap_ext. intros _ c _. apply spec_decode_heuristic_char_periodic.
  - case_decide; [|done]. f_equal. apply list_fmap_ext. intros _ [c m] _.
    apply spec_decode_with_metadata_char_periodic.
Qed.

Lemma spec_encrypt_char_0 (a b : Z) (c : N) :
  spec_encrypt_char (26 * a) (26 * b) c = c.
Proof.
  rewrite <- (Z.add_0_l (26 * a)), <- (Z.add_0_l (26 * b)).
  rewrite spec_encrypt_char_periodic. unfold spec_encrypt_char, classify.
  repeat case_decide; try done; apply rotate_0; try done; solve_range.
Qed.

Lemma spec_decode_heuristic_char_0 (a b : Z) (c : N) :
  spec_decode_heuristic_char (26 * a) (26 * b) c = c.
Proof.
  rewrite <- (Z.add_0_l (26 * a)), <- (Z.add_0_l (26 * b)).
  rewrite spec_decode_heuristic_char_periodic. unfold spec_decode_heuristic_char.
  destruct (decide (in_range "a" "z" c)) as [H1|H1].
  - cbv zeta. rewrite !(rotate_0 "a" c) by (try done; solve_range). by case_decide.
  - destruct (decide (in_range "A" "Z" c)) as [H2|H2]; [|done].
    cbv zeta. rewrite !(rotate_0 "A" c) by (try done; solve_range). by case_decide.
Qed.

Lemma spec_decode_with_metadata_char_0 (a b : Z) (c m : N) :
  spec_decode_with_metadata_char (26 * a) (26 * b) c m = c.
Proof.
  rewrite <- (Z.add_0_l (26 * a)), <- (Z.add_0_l (26 * b)).
  rewrite spec_decode_with_metadata_char_periodic.
  unfold spec_decode_with_metadata_char.
  repeat case_decide; try done; apply rotate_0; try done; solve_range.
Qed.

Lemma fmap_zip_fst {A B} (f : A * B → A) (l : list A) (k : list B) :
  (∀ p, f p = p.1) → length l = length k → f <$> zip l k = l.
Proof.
  intros Hf Hlen. rewrite (list_fmap_ext f fst (zip l k)) by (intros; apply Hf).
  apply fst_zip. lia.
Qed.

(** X4.  With both keys multiples of 26 (zero included) every function of
    the module returns its text unchanged; [decrypt_text_with_meta] does so
    under any metadata of the right length. *)
Theorem keys_multiple_of_26_change_nothing (unicode_lower unicode_upper : N → bool)
    (text : list N) (a b : Z) :
  encrypt_text unicode_lower unicode_upper text (26 * a) (26 * b) = Ok text
  ∧ fst <$> encrypt_text_with_meta unicode_lower unicode_upper text (26 * a) (26 * b)
    = Ok text
  ∧ decrypt_text unicode_lower unicode_upper text (26 * a) (26 * b) = Ok text
  ∧ ∀ metadata, length metadata = length text →
      decrypt_text_with_meta text metadata (26 * a) (26 * b) = Ok text.
Proof.
  rewrite encrypt_text_spec, encrypt_text_with_meta_spec, decrypt_text_spec.
  assert (spec_encrypt_char (26 * a) (26 * b) <$> text = text) as ->.
  { rewrite <- (list_fmap_id text) at 2. apply list_fmap_ext.
    intros _ c _. apply spec_encrypt_char_0. }
  assert (spec_decode_heuristic_char (26 * a) (26 * b) <$> text = text) as ->.
  { rewrite <- (list_fmap_id text) at 2. apply list_fmap_ext.
    intros _ c _. apply spec_decode_heuristic_char_0. }
  repeat split. intros metadata Hlen.
  rewrite decrypt_text_with_meta_spec, decide_True by done. f_equal.
  apply fmap_zip_fst; [|done]. intros [c m]. apply spec_decode_with_metadata_char_0.
Qed.

Lemma same_case_rotate_lower (c : N) (s : Z) :
  in_range "a" "z" c → same_case c (rotate "a" c s).
Proof. intros Hc. left. split; [done | apply rotate_lower]. Qed.

Lemma same_case_rotate_upper (c : N) (s : Z) :
  in_range "A" "Z" c → same_case c (rotate "A" c s).
Proof. intros Hc. right. left. split; [done | apply rotate_upper]. Qed.

Lemma same_case_refl (c : N) : same_case c c.
Proof.
  destruct (decide (in_range "a" "z" c)); [by left|].
  destruct (decide (in_range "A" "Z" c)); [by right; left|].
  right. right. split; [|done]. by intros [|].
Qed.

Lemma same_case_encrypt (s1 s2 : Z) (c : N) :
  same_case c (spec_encrypt_char s1 s2 c).
Proof.
  unfold spec_encrypt_char, classify. repeat case_decide;
    first [ apply same_case_rotate_lower; solve_range
          | apply same_case_rotate_upper; solve_range
          | apply same_case_refl ].
Qed.

Lemma same_case_heuristic (s1 s2 : Z) (c : N) :
  same_case c (spec_decode_heuristic_char s1 s2 c).
Proof.
  unfold spec_decode_heuristic_char. cbv zeta. repeat case_decide;
    first [ by apply same_case_rotate_lower
          | by apply same_case_rotate_upper
          | apply same_case_refl ].
Qed.

Lemma same_case_metadata (s1 s2 : Z) (c m : N) :
  same_case c (spec_decode_with_metadata_char s1 s2 c m).
Proof.
  unfold spec_decode_with_metadata_char. repeat case_decide;
    first [ by apply same_case_rotate_lower
          | by apply same_case_rotate_upper
          | apply same_case_refl ].
Qed.

Lemma Forall2_fmap_diag {A} (R : A → A → Prop) (f : A → A) (l : list A) :
  (∀ x, R x (f x)) → Forall2 R l (f <$> l).
Proof. intros HR. induction l; constructor; auto. Qed.

Lemma Forall2_fmap_zip {A B} (R : A → A → Prop) (f : A * B → A)
    (l : list A) (k : list B) :
  (∀ x y, R x (f (x, y))) → length l = length k → Forall2 R l (f <$> zip l k).
Proof.
  intros HR. revert k. induction l as [|x l IH]; intros [|y k] Hlen;
    simplify_eq/=; constructor; auto.
Qed.

(** X5.  No function of the module changes the case of a letter, turns a
    letter into another kind of character, or touches a character that is
    not a letter: each result character is [same_case] as the character at
    its position in the input. *)
Theorem case_is_preserved (unicode_lower unicode_upper : N → bool)
    (text : list N) (shift1 shift2 : Z) :
  (∃ out, encrypt_text unicode_lower unicode_upper text shift1 shift2 = Ok out
          ∧ Forall2 same_case text out)
  ∧ (∃ out metadata,
       encrypt_text_with_meta unicode_lower unicode_upper text shift1 shift2
       = Ok (out, metadata)
       ∧ Forall2 same_case text out)
  ∧ (∃ out, decrypt_text unicode_lower unicode_upper text shift1 shift2 = Ok out
            ∧ Forall2 same_case text out)
  ∧ (∀ metadata, length metadata = length text →
       ∃ out, decrypt_text_with_meta text metadata shift1 shift2 = Ok out
              ∧ Forall2 same_case text out).
Proof.
  repeat split.
  - eexists. split; [apply encrypt_text_spec|].
    apply Forall2_fmap_diag, same_case_encrypt.
  - eexists _, _. split; [apply encrypt_text_with_meta_spec|].
    apply Forall2_fmap_diag, same_case_encrypt.
  - eexists. split; [apply decrypt_text_spec|].
    apply Forall2_fmap_diag, same_case_heuristic.
  - intros metadata Hlen. eexists. split.
    + by rewrite decrypt_text_with_meta_spec, decide_True.
    + apply Forall2_fmap_zip; [|done]. intros c m. apply same_case_metadata.
Qed.

Lemma code_elem_of (k : Category) : code k ∈ py "lLuU0".
Proof. destruct k; simpl; rewrite !elem_of_cons; tauto. Qed.

(** X6.  The metadata of [encrypt_text_with_meta] depends on the text
    only, not on the keys, and holds no character other than 'l', 'L',
    'u', 'U' and '0'. *)
Theorem metadata_is_independent_of_keys (unicode_lower unicode_upper : N → bool)
    (text : list N) (shift1 shift2 shift1' shift2' : Z) :
  ∃ ciphertext ciphertext' metadata,
    encrypt_text_with_meta unicode_lower unicode_upper text shift1 shift2
    = Ok (ciphertext, metadata)
    ∧ encrypt_text_with_meta unicode_lower unicode_upper text shift1' shift2'
      = Ok (ciphertext', metadata)
    ∧ Forall (λ m, m ∈ py "lLuU0") metadata.
Proof.
  eexists _, _, _. rewrite !encrypt_text_with_meta_spec. repeat split.
  apply Forall_fmap, Forall_true. intros c. apply code_elem_of.
Qed.

(** ** The heuristic decode after an encryption *)

Lemma rotate_back (base : ascii) (c : N) (s t : Z) :
  (ch base ≤ c < ch base + 26)%N → s + t = 0 →
  rotate base (rotate base c s) t = c.
Proof.
  intros Hc Hst. rewrite rotate_rotate, Hst. by apply rotate_0.
Qed.

Lemma heuristic_after_encrypt (s1 s2 : Z) (c : N) :
  spec_decode_heuristic_char s1 s2 (spec_encrypt_char s1 s2 c) = c
  ↔ ¬ heuristic_misreads s1 s2 c.
Proof.
  unfold heuristic_misreads, spec_encrypt_char, classify.
  destruct (decide (in_range "a" "m" c)) as [H1|H1].
  { split; [intros _ [[? _]|[? _]]; solve_range | intros _].
    unfold spec_decode_heuristic_char.
    rewrite decide_True by apply rotate_lower. cbv zeta.
    rewrite rotate_back by (solve_range || lia). by rewrite decide_True. }
  destruct (decide (in_range "n" "z" c)) as [H2|H2].
  { unfold spec_decode_heuristic_char.
    rewrite decide_True by apply rotate_lower. cbv zeta.
    rewrite (rotate_back "a" c (- (s1 + s2)) (s1 + s2)) by (solve_range || lia).
    case_decide as Hc.
    - split.
      + intros Heq. rewrite Heq in Hc. solve_range.
      + intros Hn. destruct Hn. by left.
    - split; [|done]. intros _ [[_ ?]|[? _]]; [done | solve_range]. }
  destruct (decide (in_range "A" "M" c)) as [H3|H3].
  { split; [intros _ [[? _]|[? _]]; solve_range | intros _].
    unfold spec_decode_heuristic_char.
    rewrite decide_False by (pose proof (rotate_upper c (- s1)); solve_range).
    rewrite decide_True by apply rotate_upper. cbv zeta.
    rewrite rotate_back by (solve_range || lia). by rewrite decide_True. }
  destruct (decide (in_range "N" "Z" c)) as [H4|H4].
  { unfold spec_decode_heuristic_char.
    rewrite decide_False by (pose proof (rotate_upper c (s2 * s2)); solve_range).
    rewrite decide_True by apply rotate_upper. cbv zeta.
    rewrite (rotate_back "A" c (s2 * s2) (- (s2 * s2))) by (solve_range || lia).
    case_decide as Hc.
    - split.
      + intros Heq. rewrite Heq in Hc. solve_range.
      + intros Hn. destruct Hn. by right.
    - split; [|done]. intros _ [[? _]|[_ ?]]; [solve_range | done]. }
  split; [intros _ [[? _]|[? _]]; solve_range | intros _].
  apply spec_passthrough_heuristic. intros [|]; solve_range.
Qed.

Lemma fmap_fixed {A} (f : A → A) (l : list A) :
  f <$> l = l ↔ Forall (λ x, f x = x) l.
Proof.
  induction l as [|x l IH]; [by split|].
  rewrite fmap_cons, Forall_cons, <- IH. split; [by intros [= ? ?] | by intros [-> ->]].
Qed.

Lemma heuristic_round_trip_chars (unicode_lower unicode_upper : N → bool)
    (text : list N) (shift1 shift2 : Z) :
  encrypt_text unicode_lower unicode_upper text shift1 shift2
    ≫= (λ ciphertext, decrypt_text unicode_lower unicode_upper ciphertext shift1 shift2)
  = Ok text
  ↔ Forall (λ c, spec_decode_heuristic_char shift1 shift2
                   (spec_encrypt_char shift1 shift2 c) = c) text.
Proof.
  rewrite encrypt_text_spec. simpl. rewrite decrypt_text_spec.
  rewrite <- list_fmap_compose. split.
  - intros [= H]. by apply fmap_fixed in H.
  - intros H. f_equal. by apply fmap_fixed.
Qed.

(** X7.  Decoding a plain ciphertext with the heuristic gives the text
    back exactly when no character of the text is misread: each letter of
    n-z (N-Z) must be one whose ciphertext, shifted back by
    [- (shift1 * shift2)] ([+ shift1]), does not land in a-m (A-M).
    Letters of a-m and A-M and characters that are not letters are always
    recovered. *)
Theorem heuristic_round_trip (unicode_lower unicode_upper : N → bool)
    (text : list N) (shift1 shift2 : Z) :
  encrypt_text unicode_lower unicode_upper text shift1 shift2
    ≫= (λ ciphertext, decrypt_text unicode_lower unicode_upper ciphertext shift1 shift2)
  = Ok text
  ↔ Forall (λ c, ¬ heuristic_misreads shift1 shift2 c) text.
Proof.
  rewrite heuristic_round_trip_chars.
  apply Forall_iff. intros c. apply heuristic_after_encrypt.
Qed.

Lemma first_half_position (base : ascii) (c : N) (s : Z) :
  (ch base ≤ rotate base c s ≤ ch base + 12)%N ↔ position base c s ≤ 12.
Proof. pose proof (position_bound base c s). unfold rotate. lia. Qed.

Lemma misreads_ends (p q : Z) :
  ¬ (13 + (q + p)) `mod` 26 ≤ 12 → ¬ (25 + (q + p)) `mod` 26 ≤ 12 →
  (q + p) `mod` 26 = 0.
Proof. intros H13 H25. Z.div_mod_to_equations. lia. Qed.

Lemma no_misread_keys (shift1 shift2 : Z) :
  (∀ c, ¬ heuristic_misreads shift1 shift2 c)
  ↔ (shift1 * shift2 + shift1 + shift2) `mod` 26 = 0
    ∧ (shift2 * shift2 + shift1) `mod` 26 = 0.
Proof.
  split.
  - intros Hno.
    pose proof (Hno (ch "n")) as Hn. pose proof (Hno (ch "z")) as Hz.
    pose proof (Hno (ch "N")) as HN. pose proof (Hno (ch "Z")) as HZ.
    unfold heuristic_misreads in Hn, Hz, HN, HZ.
    rewrite !rotate_rotate in Hn, Hz, HN, HZ.
    assert (∀ c s, in_range "a" "m" (rotate "a" c s) ↔ position "a" c s ≤ 12) as Hlo.
    { intros c s. rewrite <- first_half_position. solve_range. }
    assert (∀ c s, in_range "A" "M" (rotate "A" c s) ↔ position "A" c s ≤ 12) as Hup.
    { intros c s. rewrite <- first_half_position. solve_range. }
    rewrite Hlo in Hn, Hz. rewrite Hup in HN, HZ.
    unfold position in Hn, Hz, HN, HZ.
    split.
    + assert ((- (shift1 + shift2) + - (shift1 * shift2)) `mod` 26 = 0) as H0.
      { apply misreads_ends.
        * intros H. apply Hn. left. split; [solve_range|].
          eval_ranges. replace (Z.of_N 110 - Z.of_N 97) with 13 by lia. done.
        * intros H. apply Hz. left. split; [solve_range|].
          eval_ranges. replace (Z.of_N 122 - Z.of_N 97) with 25 by lia. done. }
      revert H0. generalize (shift1 * shift2). intros p H0.
      Z.div_mod_to_equations. lia.
    + apply misreads_ends.
      * intros H. apply HN. right. split; [solve_range|].
        eval_ranges. replace (Z.of_N 78 - Z.of_N 65) with 13 by lia. done.
      * intros H. apply HZ. right. split; [solve_range|].
        eval_ranges. replace (Z.of_N 90 - Z.of_N 65) with 25 by lia. done.
  - intros [Hl Hu] c [[Hc Hm]|[Hc Hm]]; rewrite rotate_rotate in Hm.
    + rewrite rotate_0 in Hm; [solve_range | solve_range |].
      revert Hl. generalize (shift1 * shift2). intros p Hl.
      Z.div_mod_to_equations. lia.
    + rewrite rotate_0 in Hm; [solve_range | solve_range | done].
Qed.

(** X8.  The heuristic decode undoes the plain encryption of every text
    exactly for the keys with [shift1 * shift2 + shift1 + shift2] and
    [shift2 * shift2 + shift1] both multiples of 26; for any other keys
    some text is decoded to a different text. *)
Theorem heuristic_exact_keys (unicode_lower unicode_upper : N → bool)
    (shift1 shift2 : Z) :
  (∀ text,
     encrypt_text unicode_lower unicode_upper text shift1 shift2
       ≫= (λ ciphertext,
             decrypt_text unicode_lower unicode_upper ciphertext shift1 shift2)
     = Ok text)
  ↔ (shift1 * shift2 + shift1 + shift2) `mod` 26 = 0
    ∧ (shift2 * shift2 + shift1) `mod` 26 = 0.
Proof.
  rewrite <- no_misread_keys. split.
  - intros Hall c. specialize (Hall [c]).
    apply heuristic_round_trip_chars in Hall.
    apply heuristic_after_encrypt. by inversion Hall.
  - intros Hno text. apply heuristic_round_trip_chars, Forall_forall.
    intros c _. by apply heuristic_after_encrypt.
Qed.

(** ** The file layer *)

Lemma translate_newlines_no_cr (after_cr : bool) (content : list N) :
  13%N ∉ translate_newlines after_cr content.
Proof.
  revert after_cr. induction content as [|c rest IH]; intros after_cr; simpl.
  - apply not_elem_of_nil.
  - repeat case_decide; rewrite ?not_elem_of_cons; auto.
Qed.

Lemma translate_newlines_id (content : list N) :
  13%N ∉ content → translate_newlines false content = content.
Proof.
  induction content as [|c rest IH]; [done|]. rewrite not_elem_of_cons.
  intros [Hc Hrest]. simpl. rewrite decide_False by done.
  rewrite decide_False by (by intros [_ ?]). by rewrite IH.
Qed.

Lemma translate_newlines_no_surrogate (after_cr : bool) (content : list N) :
  ¬ Exists is_surrogate content →
  ¬ Exists is_surrogate (translate_newlines after_cr content).
Proof.
  revert after_cr. induction content as [|c rest IH]; intros after_cr; simpl; [done|].
  rewrite Exists_cons. intros Hno.
  repeat case_decide; rewrite ?Exists_cons; intros Hex.
  - destruct Hex as [Hs|Hex]; [unfold is_surrogate in Hs; lia|].
    eapply IH; [|done]. tauto.
  - eapply IH; [|done]. tauto.
  - destruct Hex as [Hs|Hex]; [tauto|]. eapply IH; [|done]. tauto.
Qed.

Lemma universal_newlines_idem (content : list N) :
  universal_newlines (universal_newlines content) = universal_newlines content.
Proof. apply translate_newlines_id, translate_newlines_no_cr. Qed.

Lemma run_bind {A B} (m : io A) (f : A → io B) (w : world) :
  run (m ≫= f) w
  = match run m w with
    | (Returned a, w') => run (f a) w'
    | (Raised e, w') => (Raised e, w')
    end.
Proof. done. Qed.

Lemma run_read_file (path content : list N) (w : world) :
  files w !! path = Some content →
  run (read_file path) w = (Returned (universal_newlines content), w).
Proof. intros H. unfold read_file. simpl. by rewrite H. Qed.

Lemma run_read_file_None (path : list N) (w : world) :
  files w !! path = None →
  run (read_file path) w = (Raised (FileNotFoundError path), w).
Proof. intros H. unfold read_file. simpl. by rewrite H. Qed.

Lemma run_write_file (path text : list N) (w : world) :
  ¬ Exists is_surrogate text →
  run (write_file path text) w
  = (Returned tt, World (<[path := text]> (files w)) (stdin w) (stdout w)).
Proof. intros H. unfold write_file. simpl. by rewrite decide_False. Qed.

Lemma path_join_prefix (dir name : list N) :
  head name ≠ Some (ch "/") → path_join dir name = dir_prefix dir ++ name.
Proof.
  intros Hname. unfold path_join, dir_prefix. rewrite decide_False by done.
  case_decide; [done|]. by rewrite <- app_assoc.
Qed.

Lemma paths_prefix (dir : list N) :
  _paths dir
  = (dir_prefix dir ++ py "raw_text.txt", dir_prefix dir ++ py "encrypted_text.txt",
     dir_prefix dir ++ py "decrypted_text.txt",
     dir_prefix dir ++ py "encryption_meta.txt").
Proof. unfold _paths. cbv zeta. by rewrite !path_join_prefix. Qed.


Lemma run_engine_Ok {A} (a : A) (w : world) : run (engine (Ok a)) w = (Returned a, w).
Proof. done. Qed.

Lemma same_case_keeps_text (c e : N) :
  same_case c e → (is_surrogate e → is_surrogate c) ∧ (e = 13%N → c = 13%N).
Proof.
  unfold is_surrogate. intros [[_ He]|[[_ He]|[_ ->]]]; [| |done];
    split; intros ?; solve_range.
Qed.

Lemma code_keeps_text (k : Category) : ¬ is_surrogate (code k) ∧ code k ≠ 13%N.
Proof. unfold is_surrogate. destruct k; unfold code; split; solve_range. Qed.

(** What the cipher makes of a text that has no surrogate and no '\r' has
    none either. *)
Lemma encrypted_text_is_clean (shift1 shift2 : Z) (text : list N) :
  ¬ Exists is_surrogate text → 13%N ∉ text →
  ¬ Exists is_surrogate (spec_encrypt_char shift1 shift2 <$> text)
  ∧ (13%N ∉ (spec_encrypt_char shift1 shift2 <$> text))
  ∧ ¬ Exists is_surrogate (code ∘ classify <$> text)
  ∧ (13%N ∉ (code ∘ classify <$> text)).
Proof.
  intros Hs Hcr. repeat split.
  - rewrite Exists_fmap. intros Hex. apply Hs. eapply Exists_impl; [done|].
    intros c Hc. by apply (same_case_keeps_text c _ (same_case_encrypt shift1 shift2 c)).
  - rewrite list_elem_of_fmap. intros (c & Hc & Hin).
    symmetry in Hc.
    apply (same_case_keeps_text c _ (same_case_encrypt shift1 shift2 c)) in Hc.
    by subst c.
  - rewrite Exists_fmap, Exists_exists. intros (c & _ & Hc).
    destruct (code_keeps_text (classify c)) as [Hk _]. by apply Hk.
  - rewrite list_elem_of_fmap. intros (c & Hc & _).
    destruct (code_keeps_text (classify c)) as [_ Hk]. by apply Hk.
Qed.

(** The functions of the file layer, to unfold them where a section gives
    their names to their instances. *)
Ltac unfold_encrypt_file := unfold encrypt_file.
Ltac unfold_decrypt_file := unfold decrypt_file.
Ltac unfold_verify_decryption := unfold verify_decryption.
Ltac unfold_read_int := unfold _read_int.
Ltac unfold_main := unfold main.

Section FileProperties.
Variables unicode_lower unicode_upper : N → bool.
Variable script_dir : list N.
Variable strip : list N → list N.
Variable int : list N → option Z.

Abbreviation encrypt_file := (encrypt_file unicode_lower unicode_upper script_dir).
Abbreviation decrypt_file := (decrypt_file script_dir).
Abbreviation verify_decryption := (verify_decryption script_dir).
Abbreviation _read_int := (_read_int strip int).
Abbreviation main := (main unicode_lower unicode_upper script_dir strip int).
Abbreviation pre := (dir_prefix script_dir).

(** Two paths of [_paths] with different names are different. *)
Ltac paths_ne :=
  let H := fresh in
  intros H; apply app_inv_head in H; vm_compute in H; discriminate H.

(** One step of a run: the next call of the sequence is rewritten by what
    is known of it. *)
Ltac io_step :=
  rewrite run_bind;
  first
    [ erewrite run_read_file by
        (rewrite ?lookup_insert_eq, ?lookup_insert_ne by paths_ne;
         first [eassumption | reflexivity])
    | rewrite run_engine_Ok
    | rewrite run_write_file by assumption ];
  cbv beta iota.

Lemma run_encrypt_file (shift1 shift2 : Z) (w : world) (content : list N) :
  files w !! (pre ++ py "raw_text.txt") = Some content →
  ¬ Exists is_surrogate content →
  run (encrypt_file shift1 shift2) w
  = (Returned tt,
     World (<[pre ++ py "encryption_meta.txt"
               := code ∘ classify <$> universal_newlines content]>
              (<[pre ++ py "encrypted_text.txt"
                  := spec_encrypt_char shift1 shift2 <$> universal_newlines content]>
                 (files w)))
       (stdin w)
       (stdout w ++ (py "Encrypted -> " ++ pre ++ py "encrypted_text.txt") ++ [10%N])).
Proof.
  intros Hraw Hvalid. unfold_encrypt_file. rewrite paths_prefix.
  cbv beta iota.
  destruct (encrypted_text_is_clean shift1 shift2 (universal_newlines content))
    as (Henc & _ & Hmeta & _);
    [by apply translate_newlines_no_surrogate | apply translate_newlines_no_cr |].
  io_step. rewrite encrypt_text_with_meta_spec. io_step. io_step. io_step.
  done.
Qed.

(** X10.  [encrypt_file], when raw_text.txt exists and holds valid text,
    returns; it writes the ciphertext and the metadata of the text as it is
    read (line endings translated) to encrypted_text.txt and
    encryption_meta.txt, changes no other file, reads nothing from standard
    input and prints one line naming the encrypted file. *)
Theorem encrypt_file_writes_ciphertext_and_metadata (shift1 shift2 : Z)
    (w : world) (content : list N) :
  let '(raw_path, enc_path, dec_path, meta_path) := _paths script_dir in
  files w !! raw_path = Some content →
  ¬ Exists is_surrogate content →
  ∃ enc meta,
    encrypt_text_with_meta unicode_lower unicode_upper
      (universal_newlines content) shift1 shift2 = Ok (enc, meta)
    ∧ run (encrypt_file shift1 shift2) w
      = (Returned tt,
         World (<[meta_path := meta]> (<[enc_path := enc]> (files w)))
           (stdin w)
           (stdout w ++ (py "Encrypted -> " ++ enc_path) ++ [10%N])).
Proof.
  rewrite paths_prefix. intros Hraw Hvalid. eexists _, _.
  split; [apply encrypt_text_with_meta_spec|]. by apply run_encrypt_file.
Qed.

(** X11.  [encrypt_file] with no raw_text.txt raises [FileNotFoundError]
    for that path and leaves the files and both streams as they were. *)
Theorem encrypt_file_without_raw_text (shift1 shift2 : Z) (w : world) :
  let '(raw_path, enc_path, dec_path, meta_path) := _paths script_dir in
  files w !! raw_path = None →
  run (encrypt_file shift1 shift2) w = (Raised (FileNotFoundError raw_path), w).
Proof.
  rewrite paths_prefix. intros Hraw. unfold_encrypt_file.
  rewrite paths_prefix. cbv beta iota. rewrite run_bind.
  by rewrite run_read_file_None.
Qed.

Lemma run_decrypt_file (shift1 shift2 : Z) (w : world) (enc meta : list N) :
  files w !! (pre ++ py "encrypted_text.txt") = Some enc →
  files w !! (pre ++ py "encryption_meta.txt") = Some meta →
  run (decrypt_file shift1 shift2) w
  = match decrypt_text_with_meta (universal_newlines enc) (universal_newlines meta)
            shift1 shift2 with
    | Ok dec =>
        run (write_file (pre ++ py "decrypted_text.txt") dec
             ≫= λ _, print (py "Decrypted -> " ++ pre ++ py "decrypted_text.txt")) w
    | Raise e => (Raised (CipherError e), w)
    end.
Proof.
  intros Henc Hmeta. unfold_decrypt_file. rewrite paths_prefix.
  cbv beta iota. io_step. io_step. rewrite run_bind.
  by destruct (decrypt_text_with_meta _ _ _ _).
Qed.


Lemma run_print (text : list N) (w : world) :
  run (print text) w
  = (Returned tt, World (files w) (stdin w) (stdout w ++ text ++ [10%N])).
Proof. done. Qed.

Lemma run_decrypt_file_ok (shift1 shift2 : Z) (w : world) (enc meta dec : list N) :
  files w !! (pre ++ py "encrypted_text.txt") = Some enc →
  files w !! (pre ++ py "encryption_meta.txt") = Some meta →
  13%N ∉ enc → 13%N ∉ meta →
  decrypt_text_with_meta enc meta shift1 shift2 = Ok dec →
  ¬ Exists is_surrogate dec →
  run (decrypt_file shift1 shift2) w
  = (Returned tt,
     World (<[pre ++ py "decrypted_text.txt" := dec]> (files w)) (stdin w)
       (stdout w ++ (py "Decrypted -> " ++ pre ++ py "decrypted_text.txt") ++ [10%N])).
Proof.
  intros Henc Hmeta Hcr1 Hcr2 Hdec Hvalid.
  rewrite (run_decrypt_file _ _ _ _ _ Henc Hmeta).
  unfold universal_newlines. rewrite !translate_newlines_id by done.
  rewrite Hdec. io_step. by rewrite run_print.
Qed.

Lemma run_verify_decryption (w : world) (raw dec : list N) :
  files w !! (pre ++ py "raw_text.txt") = Some raw →
  files w !! (pre ++ py "decrypted_text.txt") = Some dec →
  run verify_decryption w
  = (Returned (bool_decide (universal_newlines raw = universal_newlines dec)),
     World (files w) (stdin w)
       (stdout w
        ++ (py "Verification: "
            ++ (if bool_decide (universal_newlines raw = universal_newlines dec)
                then py "SUCCESS" else py "FAILURE"))
        ++ [10%N])).
Proof.
  intros Hraw Hdec. unfold_verify_decryption. rewrite paths_prefix.
  cbv beta iota zeta. io_step. io_step. by rewrite run_bind, run_print.
Qed.

Lemma run_round (shift1 shift2 : Z) (w : world) (content : list N) :
  files w !! (pre ++ py "raw_text.txt") = Some content →
  ¬ Exists is_surrogate content →
  run (encrypt_file shift1 shift2
       ≫= λ _, decrypt_file shift1 shift2 ≫= λ _, verify_decryption) w
  = (Returned true, after_round script_dir shift1 shift2 w content).
Proof.
  intros Hraw Hvalid.
  pose proof (translate_newlines_no_surrogate false content Hvalid) as Hvalid'.
  pose proof (translate_newlines_no_cr false content) as Hcr.
  fold (universal_newlines content) in Hvalid', Hcr.
  destruct (encrypted_text_is_clean shift1 shift2 (universal_newlines content))
    as (_ & Hcr1 & _ & Hcr2); [done..|].
  rewrite run_bind, (run_encrypt_file _ _ _ _ Hraw Hvalid). cbv beta iota.
  rewrite run_bind.
  rewrite (run_decrypt_file_ok shift1 shift2 _
             (spec_encrypt_char shift1 shift2 <$> universal_newlines content)
             (code ∘ classify <$> universal_newlines content)
             (universal_newlines content)); cbn [files stdin stdout]; try done;
    cycle 1.
  { rewrite lookup_insert_ne by paths_ne. apply lookup_insert_eq. }
  { apply lookup_insert_eq. }
  { rewrite decrypt_text_with_meta_spec, decide_True by (by rewrite !length_fmap).
    by rewrite spec_round_trip. }
  cbv beta iota.
  erewrite run_verify_decryption; cbn [files stdin stdout]; cycle 1.
  { rewrite !lookup_insert_ne by paths_ne. done. }
  { apply lookup_insert_eq. }
  rewrite universal_newlines_idem, bool_decide_eq_true_2 by done. done.
Qed.

(** X13.  After [encrypt_file], [decrypt_file] and [verify_decryption] in
    a row, with any keys, on a raw_text.txt that holds valid text:
    all three return, the verification returns [True], decrypted_text.txt
    holds the text as it was read, no file other than the three outputs is
    changed, nothing is read from standard input, and the last line
    printed is "Verification: SUCCESS". *)
Theorem encrypt_decrypt_verify_succeeds (shift1 shift2 : Z) (w : world)
    (content : list N) :
  let '(raw_path, enc_path, dec_path, meta_path) := _paths script_dir in
  files w !! raw_path = Some content →
  ¬ Exists is_surrogate content →
  ∃ w',
    run (encrypt_file shift1 shift2
         ≫= λ _, decrypt_file shift1 shift2 ≫= λ _, verify_decryption) w
    = (Returned true, w')
    ∧ files w' !! dec_path = Some (universal_newlines content)
    ∧ (∀ path, path ∉ [enc_path; dec_path; meta_path] →
         files w' !! path = files w !! path)
    ∧ stdin w' = stdin w
    ∧ stdout w'
      = stdout w ++ py "Encrypted -> " ++ enc_path ++ [10%N]
        ++ py "Decrypted -> " ++ dec_path ++ [10%N]
        ++ py "Verification: SUCCESS" ++ [10%N].
Proof.
  rewrite paths_prefix. intros Hraw Hvalid.
  exists (after_round script_dir shift1 shift2 w content).
  split; [by apply run_round|]. unfold after_round. cbn [files stdin stdout].
  split; [apply lookup_insert_eq|]. split; [|split; [done|]].
  - intros path Hpath. rewrite !not_elem_of_cons in Hpath.
    destruct Hpath as (? & ? & ? & _). by rewrite !lookup_insert_ne.
  - by rewrite <- !app_assoc.
Qed.

(** ** [_read_int] and [main] *)

Lemma read_int_loop_skips (prompt : list N) (bad rest : list (list N))
    (out : list N) :
  Forall (λ line, int (strip line) = None) bad →
  read_int_loop strip int prompt (bad ++ rest) out
  = read_int_loop strip int prompt rest
      (out ++ mjoin (replicate (length bad)
                       (prompt ++ py "Please enter an integer." ++ [10%N]))).
Proof.
  intros Hbad. revert out. induction Hbad as [|line bad Hline _ IH]; intros out.
  - simpl. by rewrite app_nil_r.
  - cbn [app read_int_loop length replicate mjoin list_join]. rewrite Hline, IH.
    by rewrite <- !app_assoc.
Qed.

(** X14.  [_read_int] asks again after every line that is not an integer,
    with one message for each: it returns the value of the first line that
    is an integer and leaves the lines after it unread; when no line is an
    integer it reads them all and raises [EOFError].  It touches no file. *)
Theorem read_int_asks_until_an_integer (prompt : list N) (w : world)
    (bad : list (list N)) :
  Forall (λ line, int (strip line) = None) bad →
  let asked :=
    stdout w
    ++ mjoin (replicate (length bad)
                (prompt ++ py "Please enter an integer." ++ [10%N]))
    ++ prompt in
  (∀ line rest n,
     stdin w = bad ++ line :: rest → int (strip line) = Some n →
     run (_read_int prompt) w = (Returned n, World (files w) rest asked))
  ∧ (stdin w = bad →
     run (_read_int prompt) w = (Raised EOFError, World (files w) [] asked)).
Proof.
  intros Hbad asked. subst asked. split.
  - intros line rest n Hin Hline. unfold_read_int. cbn [run].
    rewrite Hin, read_int_loop_skips by done. cbn [read_int_loop].
    rewrite Hline. by rewrite <- app_assoc.
  - intros Hin. unfold_read_int. cbn [run].
    rewrite Hin, <- (app_nil_r bad), read_int_loop_skips by done.
    cbn [read_int_loop]. by rewrite app_nil_r, <- app_assoc.
Qed.

Lemma read_int_keeps_files (prompt : list N) (w w' : world) (r : outcome Z) :
  run (_read_int prompt) w = (r, w') → files w' = files w.
Proof.
  unfold_read_int. cbn [run].
  destruct (read_int_loop _ _ _ _ _) as [[r' lines] out]. by intros [= _ <-].
Qed.

Lemma run_round_then {B} (k : bool → io B) (shift1 shift2 : Z) (w : world)
    (content : list N) :
  files w !! (pre ++ py "raw_text.txt") = Some content →
  ¬ Exists is_surrogate content →
  run (encrypt_file shift1 shift2
       ≫= λ _, decrypt_file shift1 shift2 ≫= λ _, verify_decryption ≫= k) w
  = run (k true) (after_round script_dir shift1 shift2 w content).
Proof.
  intros Hraw Hvalid.
  pose proof (run_round shift1 shift2 w content Hraw Hvalid) as Hround.
  rewrite !run_bind in Hround. rewrite !run_bind.
  destruct (run (encrypt_file shift1 shift2) w) as [[[]|e1] w1]; [|done].
  rewrite !run_bind in Hround. rewrite !run_bind.
  destruct (run (decrypt_file shift1 shift2) w1) as [[[]|e2] w2]; [|done].
  rewrite run_bind. by rewrite Hround.
Qed.

(** X15.  [main], once both keys have been read, ends with a successful
    verification whenever raw_text.txt holds valid text: it returns,
    decrypted_text.txt holds the text as it was read, raw_text.txt is
    unchanged, and the output ends with "Verification: SUCCESS". *)
Theorem main_ends_with_success (w w1 w2 : world) (shift1 shift2 : Z)
    (content : list N) :
  let '(raw_path, enc_path, dec_path, meta_path) := _paths script_dir in
  run (_read_int (py "Enter shift1 (integer): ")) w = (Returned shift1, w1) →
  run (_read_int (py "Enter shift2 (integer): ")) w1 = (Returned shift2, w2) →
  files w !! raw_path = Some content →
  ¬ Exists is_surrogate content →
  ∃ w',
    run main w = (Returned tt, w')
    ∧ files w' !! dec_path = Some (universal_newlines content)
    ∧ files w' !! raw_path = Some content
    ∧ stdin w' = stdin w2
    ∧ stdout w'
      = stdout w2 ++ py "Encrypted -> " ++ enc_path ++ [10%N]
        ++ py "Decrypted -> " ++ dec_path ++ [10%N]
        ++ py "Verification: SUCCESS" ++ [10%N].
Proof.
  rewrite paths_prefix. intros Hs1 Hs2 Hraw Hvalid.
  assert (files w2 !! (pre ++ py "raw_text.txt") = Some content) as Hraw2.
  { by rewrite (read_int_keeps_files _ _ _ _ Hs2), (read_int_keeps_files _ _ _ _ Hs1). }
  exists (after_round script_dir shift1 shift2 w2 content). split.
  - unfold_main. rewrite run_bind, Hs1. cbv beta iota.
    rewrite run_bind, Hs2. cbv beta iota.
    by rewrite (run_round_then (λ _, mret tt) shift1 shift2 w2 content).
  - unfold after_round. cbn [files stdin stdout].
    split; [apply lookup_insert_eq|].
    split; [by rewrite !lookup_insert_ne by paths_ne|].
    split; [done|]. by rewrite <- !app_assoc.
Qed.

(** X16.  [main] with no raw_text.txt raises [FileNotFoundError] for that
    path once both keys have been read, and creates or changes no file. *)
Theorem main_without_raw_text (w w1 w2 : world) (shift1 shift2 : Z) :
  let '(raw_path, enc_path, dec_path, meta_path) := _paths script_dir in
  run (_read_int (py "Enter shift1 (integer): ")) w = (Returned shift1, w1) →
  run (_read_int (py "Enter shift2 (integer): ")) w1 = (Returned shift2, w2) →
  files w !! raw_path = None →
  run main w = (Raised (FileNotFoundError raw_path), w2) ∧ files w2 = files w.
Proof.
  rewrite paths_prefix. intros Hs1 Hs2 Hraw.
  assert (files w2 = files w) as Hfiles.
  { by rewrite (read_int_keeps_files _ _ _ _ Hs2), (read_int_keeps_files _ _ _ _ Hs1). }
  split; [|done].
  unfold_main. rewrite run_bind, Hs1. cbv beta iota.
  rewrite run_bind, Hs2. cbv beta iota. rewrite run_bind.
  unfold_encrypt_file. rewrite paths_prefix. cbv beta iota.
  rewrite run_bind, run_read_file_None; [done|]. by rewrite Hfiles.
Qed.


End FileProperties.

(** ** The file layer on the demo world *)

Lemma demo_text_is_valid : ¬ Exists is_surrogate demo_text.
Proof.
  rewrite Exists_exists. intros (c & Hc & Hs). unfold is_surrogate in Hs.
  unfold demo_text in Hc. simpl in Hc.
  repeat (apply elem_of_cons in Hc as [->|Hc]; [vm_compute in Hs; tauto|]).
  by apply elem_of_nil in Hc.
Qed.

Lemma encrypt_file_writes_ciphertext_and_metadata_witness :
  ∃ enc meta,
    encrypt_text_with_meta latin1_lower latin1_upper
      (universal_newlines demo_text) 3 2 = Ok (enc, meta)
    ∧ run (encrypt_file latin1_lower latin1_upper demo_dir 3 2) demo_world
      = (Returned tt,
         World (<[py "/srv/hit137/encryption_meta.txt" := meta]>
                  (<[py "/srv/hit137/encrypted_text.txt" := enc]> (files demo_world)))
           (stdin demo_world)
           (stdout demo_world
            ++ (py "Encrypted -> " ++ py "/srv/hit137/encrypted_text.txt") ++ [10%N])).
Proof.
  apply (encrypt_file_writes_ciphertext_and_metadata latin1_lower latin1_upper
           demo_dir 3 2 demo_world demo_text).
  - reflexivity.
  - apply demo_text_is_valid.
Defined.

Lemma encrypt_file_without_raw_text_witness :
  run (encrypt_file latin1_lower latin1_upper demo_dir 3 2) (World ∅ [] [])
  = (Raised (FileNotFoundError (py "/srv/hit137/raw_text.txt")), World ∅ [] []).
Proof.
  apply (encrypt_file_without_raw_text latin1_lower latin1_upper demo_dir 3 2
           (World ∅ [] [])).
  reflexivity.
Defined.


Lemma encrypt_decrypt_verify_succeeds_witness :
  ∃ w',
    run (encrypt_file latin1_lower latin1_upper demo_dir 3 2
         ≫= λ _, decrypt_file demo_dir 3 2 ≫= λ _, verify_decryption demo_dir)
      demo_world
    = (Returned true, w')
    ∧ files w' !! py "/srv/hit137/decrypted_text.txt"
      = Some (universal_newlines demo_text)
    ∧ (∀ path,
         path ∉ [py "/srv/hit137/encrypted_text.txt";
                 py "/srv/hit137/decrypted_text.txt";
                 py "/srv/hit137/encryption_meta.txt"] →
         files w' !! path = files demo_world !! path)
    ∧ stdin w' = stdin demo_world
    ∧ stdout w'
      = stdout demo_world
        ++ py "Encrypted -> " ++ py "/srv/hit137/encrypted_text.txt" ++ [10%N]
        ++ py "Decrypted -> " ++ py "/srv/hit137/decrypted_text.txt" ++ [10%N]
        ++ py "Verification: SUCCESS" ++ [10%N].
Proof.
  apply (encrypt_decrypt_verify_succeeds latin1_lower latin1_upper demo_dir 3 2
           demo_world demo_text).
  - reflexivity.
  - apply demo_text_is_valid.
Defined.

(** On the demo world [_read_int] rejects "three" and returns 3 for
    " 3 ". *)
Lemma read_int_asks_until_an_integer_witness :
  run (_read_int ascii_strip ascii_int (py "Enter shift1 (integer): ")) demo_world
  = (Returned 3,
     World (files demo_world) [py "-2"; py "more"]
       (py "Enter shift1 (integer): " ++ py "Please enter an integer." ++ [10%N]
        ++ py "Enter shift1 (integer): ")).
Proof.
  apply (proj1 (read_int_asks_until_an_integer ascii_strip ascii_int
                  (py "Enter shift1 (integer): ") demo_world [py "three"]
                  ltac:(repeat constructor))
           (py " 3 ") [py "-2"; py "more"] 3); reflexivity.
Defined.

Lemma main_ends_with_success_witness :
  let w1 := (run (_read_int ascii_strip ascii_int (py "Enter shift1 (integer): "))
               demo_world).2 in
  let w2 := (run (_read_int ascii_strip ascii_int (py "Enter shift2 (integer): "))
               w1).2 in
  ∃ w',
    run (main latin1_lower latin1_upper demo_dir ascii_strip ascii_int) demo_world
    = (Returned tt, w')
    ∧ files w' !! py "/srv/hit137/decrypted_text.txt"
      = Some (universal_newlines demo_text)
    ∧ files w' !! py "/srv/hit137/raw_text.txt" = Some demo_text
    ∧ stdin w' = stdin w2
    ∧ stdout w'
      = stdout w2
        ++ py "Encrypted -> " ++ py "/srv/hit137/encrypted_text.txt" ++ [10%N]
        ++ py "Decrypted -> " ++ py "/srv/hit137/decrypted_text.txt" ++ [10%N]
        ++ py "Verification: SUCCESS" ++ [10%N].
Proof.
  intros w1 w2.
  apply (main_ends_with_success latin1_lower latin1_upper demo_dir
           ascii_strip ascii_int demo_world w1 w2 3 (- 2) demo_text).
  - reflexivity.
  - reflexivity.
  - reflexivity.
  - apply demo_text_is_valid.
Defined.

Lemma main_without_raw_text_witness :
  let w := World ∅ [py "3"; py "2"] [] in
  let w2 := World ∅ []
              (py "Enter shift1 (integer): " ++ py "Enter shift2 (integer): ") in
  run (main latin1_lower latin1_upper demo_dir ascii_strip ascii_int) w
  = (Raised (FileNotFoundError (py "/srv/hit137/raw_text.txt")), w2)
  ∧ files w2 = files w.
Proof.
  apply (main_without_raw_text latin1_lower latin1_upper demo_dir
           ascii_strip ascii_int (World ∅ [py "3"; py "2"] [])
           (World ∅ [py "2"] (py "Enter shift1 (integer): ")) _ 3 2);
    reflexivity.
Defined.

(** ** What each mode of encryption loses *)

(** X18.  The metadata mode loses nothing: two different texts never get
    the same pair of ciphertext and metadata under the same keys. *)
Theorem metadata_mode_is_injective (unicode_lower unicode_upper : N → bool)
    (text text' : list N) (shift1 shift2 : Z) :
  text ≠ text' →
  encrypt_text_with_meta unicode_lower unicode_upper text shift1 shift2
  ≠ encrypt_text_with_meta unicode_lower unicode_upper text' shift1 shift2.
Proof.
  intros Hne. rewrite !encrypt_text_with_meta_spec. intros [= Henc Hmeta].
  apply Hne.
  by rewrite <- (spec_round_trip shift1 shift2 text),
    <- (spec_round_trip shift1 shift2 text'), Henc, Hmeta.
Qed.

(** "d" and "o" get the same ciphertext "j" under the keys 3, 2, but not
    the same metadata. *)
Lemma metadata_mode_is_injective_witness :
  encrypt_text_with_meta latin1_lower latin1_upper (py "d") 3 2
  ≠ encrypt_text_with_meta latin1_lower latin1_upper (py "o") 3 2.
Proof.
  apply (metadata_mode_is_injective latin1_lower latin1_upper (py "d") (py "o") 3 2).
  discriminate.
Defined.

Lemma collision_lower (shift1 shift2 : Z) :
  (shift1 * shift2 + shift1 + shift2) `mod` 26 ≠ 0 →
  ∃ c c', c ≠ c' ∧ spec_encrypt_char shift1 shift2 c = spec_encrypt_char shift1 shift2 c'.
Proof.
  intros Hr.
  assert (∃ p, p = shift1 * shift2) as [p Hp] by eauto. rewrite <- Hp in Hr.
  pose proof (Z.mod_pos_bound (p + shift1 + shift2) 26 ltac:(lia)) as Hb.
  remember ((p + shift1 + shift2) `mod` 26) as r eqn:Hreq.
  destruct (decide (r ≤ 12)) as [Hle|Hgt].
  - exists (ch "m"), (Z.to_N (109 + r)). split; [solve_range|].
    unfold spec_encrypt_char, classify.
    rewrite (decide_True (P := in_range "a" "m" (ch "m"))) by solve_range.
    rewrite (decide_False (P := in_range "a" "m" (Z.to_N (109 + r)))) by solve_range.
    rewrite (decide_True (P := in_range "n" "z" (Z.to_N (109 + r)))) by solve_range.
    rewrite <- Hp. unfold rotate, position. do 2 f_equal. eval_ranges.
    replace (Z.of_N (Z.to_N (109 + r))) with (109 + r) by lia.
    subst r. Z.div_mod_to_equations. lia.
  - exists (ch "a"), (Z.to_N (97 + r)). split; [solve_range|].
    unfold spec_encrypt_char, classify.
    rewrite (decide_True (P := in_range "a" "m" (ch "a"))) by solve_range.
    rewrite (decide_False (P := in_range "a" "m" (Z.to_N (97 + r)))) by solve_range.
    rewrite (decide_True (P := in_range "n" "z" (Z.to_N (97 + r)))) by solve_range.
    rewrite <- Hp. unfold rotate, position. do 2 f_equal. eval_ranges.
    replace (Z.of_N (Z.to_N (97 + r))) with (97 + r) by lia.
    subst r. Z.div_mod_to_equations. lia.
Qed.

Lemma collision_upper (shift1 shift2 : Z) :
  (shift2 * shift2 + shift1) `mod` 26 ≠ 0 →
  ∃ c c', c ≠ c' ∧ spec_encrypt_char shift1 shift2 c = spec_encrypt_char shift1 shift2 c'.
Proof.
  intros Hr.
  assert (∃ p, p = shift2 * shift2) as [p Hp] by eauto. rewrite <- Hp in Hr.
  pose proof (Z.mod_pos_bound (p + shift1) 26 ltac:(lia)) as Hb.
  remember ((p + shift1) `mod` 26) as r eqn:Hreq.
  destruct (decide (r ≤ 12)) as [Hle|Hgt].
  - exists (Z.to_N (64 + r)), (ch "Z"). split; [solve_range|].
    unfold spec_encrypt_char, classify.
    rewrite (decide_False (P := in_range "a" "m" (Z.to_N (64 + r)))) by solve_range.
    rewrite (decide_False (P := in_range "n" "z" (Z.to_N (64 + r)))) by solve_range.
    rewrite (decide_True (P := in_range "A" "M" (Z.to_N (64 + r)))) by solve_range.
    rewrite (decide_False (P := in_range "a" "m" (ch "Z"))) by solve_range.
    rewrite (decide_False (P := in_range "n" "z" (ch "Z"))) by solve_range.
    rewrite (decide_False (P := in_range "A" "M" (ch "Z"))) by solve_range.
    rewrite (decide_True (P := in_range "N" "Z" (ch "Z"))) by solve_range.
    rewrite <- Hp. unfold rotate, position. do 2 f_equal. eval_ranges.
    replace (Z.of_N (Z.to_N (64 + r))) with (64 + r) by lia.
    subst r. Z.div_mod_to_equations. lia.
  - exists (Z.to_N (52 + r)), (ch "N"). split; [solve_range|].
    unfold spec_encrypt_char, classify.
    rewrite (decide_False (P := in_range "a" "m" (Z.to_N (52 + r)))) by solve_range.
    rewrite (decide_False (P := in_range "n" "z" (Z.to_N (52 + r)))) by solve_range.
    rewrite (decide_True (P := in_range "A" "M" (Z.to_N (52 + r)))) by solve_range.
    rewrite (decide_False (P := in_range "a" "m" (ch "N"))) by solve_range.
    rewrite (decide_False (P := in_range "n" "z" (ch "N"))) by solve_range.
    rewrite (decide_False (P := in_range "A" "M" (ch "N"))) by solve_range.
    rewrite (decide_True (P := in_range "N" "Z" (ch "N"))) by solve_range.
    rewrite <- Hp. unfold rotate, position. do 2 f_equal. eval_ranges.
    replace (Z.of_N (Z.to_N (52 + r))) with (52 + r) by lia.
    subst r. Z.div_mod_to_equations. lia.
Qed.

(** X19.  The plain mode loses information for most keys: [encrypt_text]
    sends different texts to different ciphertexts exactly when
    [shift1 * shift2 + shift1 + shift2] and [shift2 * shift2 + shift1] are
    both multiples of 26, the keys for which the heuristic decode is
    exact; for any other keys two different texts share a ciphertext. *)
Theorem plain_mode_is_injective_iff (unicode_lower unicode_upper : N → bool)
    (shift1 shift2 : Z) :
  (∀ text text',
     encrypt_text unicode_lower unicode_upper text shift1 shift2
     = encrypt_text unicode_lower unicode_upper text' shift1 shift2 →
     text = text')
  ↔ (shift1 * shift2 + shift1 + shift2) `mod` 26 = 0
    ∧ (shift2 * shift2 + shift1) `mod` 26 = 0.
Proof.
  split.
  - intros Hinj.
    assert (∀ c c', spec_encrypt_char shift1 shift2 c = spec_encrypt_char shift1 shift2 c'
                    → c = c') as Hchar.
    { intros c c' Heq. specialize (Hinj [c] [c']).
      rewrite !encrypt_text_spec in Hinj. simpl in Hinj. rewrite Heq in Hinj.
      by injection (Hinj eq_refl). }
    split.
    + destruct (decide ((shift1 * shift2 + shift1 + shift2) `mod` 26 = 0)) as [|Hr];
        [done|].
      destruct (collision_lower shift1 shift2 Hr) as (c & c' & Hne & Heq).
      destruct Hne. by apply Hchar.
    + destruct (decide ((shift2 * shift2 + shift1) `mod` 26 = 0)) as [|Hr]; [done|].
      destruct (collision_upper shift1 shift2 Hr) as (c & c' & Hne & Heq).
      destruct Hne. by apply Hchar.
  - intros Hkeys text text'. rewrite !encrypt_text_spec. intros [= Heq].
    pose proof (proj2 (no_misread_keys shift1 shift2) Hkeys) as Hno.
    assert (∀ t : list N,
              spec_decode_heuristic_char shift1 shift2
                <$> (spec_encrypt_char shift1 shift2 <$> t) = t) as Hback.
    { intros t. rewrite <- list_fmap_compose. apply fmap_fixed, Forall_forall.
      intros c _. apply heuristic_after_encrypt, Hno. }
    by rewrite <- (Hback text), <- (Hback text'), Heq.
Qed.
